(** * Kazakh Cyrillic -> Arabic-script converter (src/cyr2arab.py)

    A shallow embedding of [CyrillicToArabicConverter] and the properties
    its specification states about it.

    Data model.  A Python [str] is a sequence of Unicode code points: here a
    [list N].  The constant tables of [__init__] are written with the very
    literals of the source, decoded from UTF-8 by [u].  A [dict] is an
    association list in insertion order (the source iterates over two of
    them, and no literal repeats a key), a [set] of one-letter strings is the
    list of its letters.  Subscripts that can raise ([d[k]]) return in the
    error monad [result]. *)

From Stdlib Require Import NArith ZArith List Bool String Ascii Lia.
Import ListNotations.
Local Open Scope N_scope.

(** ** Python strings *)

Module Py.

Definition char := N.
Definition str := list char.

(** Decoding of a UTF-8 literal into its code points.  [acc] holds the bits
    read so far of a multi-byte sequence; the code point is emitted at the
    last continuation byte. *)
Fixpoint utf8 (acc : N) (s : string) : str :=
  match s with
  | EmptyString => []
  | String a t =>
      let b := N_of_ascii a in
      if b <? 0x80 then b :: utf8 0 t
      else if b <? 0xC0 then
        let v := acc * 64 + (b - 0x80) in
        match t with
        | EmptyString => [v]
        | String a' _ =>
            let b' := N_of_ascii a' in
            if (0x80 <=? b') && (b' <? 0xC0) then utf8 v t else v :: utf8 0 t
        end
      else if b <? 0xE0 then utf8 (b - 0xC0) t
      else if b <? 0xF0 then utf8 (b - 0xE0) t
      else utf8 (b - 0xF0) t
  end.

Definition u (s : string) : str := utf8 0 s.

(** The single code point of a one-letter literal. *)
Definition ch (s : string) : char := hd 0 (u s).

Definition eqb_str (a b : str) : bool :=
  if list_eq_dec N.eq_dec a b then true else false.

(** [c in s] for a letter [c] and a string or a set of letters [s]. *)
Definition mem (c : char) (s : str) : bool := existsb (N.eqb c) s.

(** [w in S] for a set of strings [S]. *)
Definition mem_str (w : str) (S : list str) : bool := existsb (eqb_str w) S.

(** [str.lower], on the Basic Latin and Cyrillic blocks (U+0000..U+007F,
    U+0400..U+052F), where it maps letter to letter.  These blocks hold
    every letter the converter tests for, and [convert] folds only what its
    pattern matches, letters of the Cyrillic block and hyphens.  Other code
    points are left as they are. *)
Definition lower_char (c : char) : char :=
  if (0x41 <=? c) && (c <=? 0x5A) then c + 0x20
  else if (0x400 <=? c) && (c <=? 0x40F) then c + 0x50
  else if (0x410 <=? c) && (c <=? 0x42F) then c + 0x20
  else if c =? 0x4C0 then 0x4CF
  else if (0x4C1 <=? c) && (c <=? 0x4CE) then (if N.odd c then c + 1 else c)
  else if ((0x460 <=? c) && (c <=? 0x481))
          || ((0x48A <=? c) && (c <=? 0x4BF))
          || ((0x4D0 <=? c) && (c <=? 0x52F))
       then (if N.even c then c + 1 else c)
  else c.

Definition lower (s : str) : str := map lower_char s.

(** [str.isalpha] of one letter, on the Basic Latin, Cyrillic and Arabic
    blocks (U+0000..U+007F, U+0400..U+052F, U+0600..U+06FF). *)
Definition isalpha (c : char) : bool :=
  ((0x41 <=? c) && (c <=? 0x5A)) || ((0x61 <=? c) && (c <=? 0x7A))
  || ((0x400 <=? c) && (c <=? 0x481)) || ((0x48A <=? c) && (c <=? 0x52F))
  || ((0x620 <=? c) && (c <=? 0x64A)) || ((0x66E <=? c) && (c <=? 0x66F))
  || ((0x671 <=? c) && (c <=? 0x6D3)) || (c =? 0x6D5)
  || ((0x6E5 <=? c) && (c <=? 0x6E6)) || ((0x6EE <=? c) && (c <=? 0x6EF))
  || ((0x6FA <=? c) && (c <=? 0x6FC)) || (c =? 0x6FF).

(** [s.startswith(p)] *)
Fixpoint startswith (s p : str) {struct p} : bool :=
  match p, s with
  | [], _ => true
  | _ :: _, [] => false
  | a :: p', b :: s' => (a =? b) && startswith s' p'
  end.

(** [s.endswith(p)] *)
Definition endswith (s p : str) : bool := startswith (rev s) (rev p).

(** [s.replace(old, new)] for a non-empty [old]: occurrences are replaced
    from left to right and do not overlap.  [skip] counts the letters of the
    occurrence being replaced that are still to be passed over. *)
Fixpoint replace_from (old new : str) (skip : nat) (s : str) : str :=
  match s with
  | [] => []
  | c :: t =>
      match skip with
      | S k => replace_from old new k t
      | O =>
          if startswith s old
          then new ++ replace_from old new (Nat.pred (List.length old)) t
          else c :: replace_from old new O t
      end
  end.

Definition replace (s old new : str) : str := replace_from old new O s.

(** [s.split(sep)] for a one-letter separator. *)
Fixpoint split (sep : char) (s : str) : list str :=
  match s with
  | [] => [[]]
  | c :: t =>
      if c =? sep then [] :: split sep t
      else match split sep t with
           | p :: ps => (c :: p) :: ps
           | [] => [[c]]
           end
  end.

(** [sep.join(parts)] *)
Fixpoint join (sep : str) (parts : list str) : str :=
  match parts with
  | [] => []
  | [p] => p
  | p :: ps => p ++ sep ++ join sep ps
  end.

(** [k in d] and [d[k]] for a dict with string keys, and for one with
    one-letter keys. *)
Fixpoint get {V} (d : list (str * V)) (k : str) : option V :=
  match d with
  | [] => None
  | (k', v) :: d' => if eqb_str k k' then Some v else get d' k
  end.

Fixpoint get_char {V} (d : list (char * V)) (k : char) : option V :=
  match d with
  | [] => None
  | (k', v) :: d' => if k =? k' then Some v else get_char d' k
  end.

End Py.
Import Py.

(** ** Exceptions *)

(** The one exception a subscript of the converter can raise. *)
Inductive exn := KeyError.

Inductive result (A : Type) :=
| OK (a : A)
| Raise (e : exn).
Arguments OK {A} a.
Arguments Raise {A} e.

Definition bind {A B} (m : result A) (f : A -> result B) : result B :=
  match m with
  | OK a => f a
  | Raise e => Raise e
  end.

Notation "x <- m ;; k" := (bind m (fun x => k))
  (at level 61, m at next level, right associativity).

(** [d[k]] *)
Definition subscript {V} (d : list (str * V)) (k : str) : result V :=
  match get d k with
  | Some v => OK v
  | None => Raise KeyError
  end.

Definition subscript_char {V} (d : list (char * V)) (k : char) : result V :=
  match get_char d k with
  | Some v => OK v
  | None => Raise KeyError
  end.

(** ** The tables of [__init__] *)

Module Tables.

(** The glottal marker, U+0674. *)
Definition HAMZA : char := 0x674.

Definition PROPER_NOUNS : list (str * str) := Eval vm_compute in
  [ (u "си", u "شي");
    (u "цзиньпин", u "جينپيڭ");
    (u "си цзиньпин", u "شي جينپيڭ");
    (u "ли цян", u "لي چياڭ");
    (u "ли", u "لي");
    (u "цян", u "چياڭ");
    (u "чжао лэцзи", u "جاۋ لىجي");
    (u "чжао", u "جاۋ");
    (u "лэцзи", u "لىجي");
    (u "ван хунин", u "ۋاڭ حۋنيڭ");
    (u "ван", u "ۋاڭ");
    (u "хунин", u "حۋنيڭ");
    (u "цай ци", u "ساي چي");
    (u "цай", u "ساي");
    (u "ци", u "چي");
    (u "дин сюэсян", u "ديڭ شۋەشياڭ");
    (u "дин", u "ديڭ");
    (u "сюэсян", u "شۋەشياڭ");
    (u "ли си", u "لي شي");
    (u "шужи", u "شۋجي");
    (u "қазақстан", u "قازاقستان");
    (u "алматы", u "الماتى");
    (u "астана", u "استانا");
    (u "шымкент", u "شىمكەنت");
    (u "жұңго", u "جۇڭگو");
    (u "чанцзян", u "چاڭجياڭ");
    (u "чанцзянның", u "چاڭجياڭنىڭ");
    (u "пекин", u "بەيجيڭ");
    (u "орталық комитет", u "ورتالىق كوميتەت") ].

Definition COMMON_WORDS : list (str * str) := Eval vm_compute in
  [ (u "сөз", HAMZA :: u "سوز");
    (u "біздің", HAMZA :: u "بىزدىڭ");
    (u "отанымыз", u "وتانىمىز");
    (u "өте", HAMZA :: u "وتە");
    (u "көрікті", u "كورىكتى");
    (u "өмірімізді", u "ومىرىمىزدى");
    (u "өзгертеді", u "وزگەرتەدى");
    (u "білім", HAMZA :: u "بىلىم");
    (u "мен", u "مەن");
    (u "ғылым", u "عىلىم");
    (u "дамудың", u "دامۋدىڭ");
    (u "кілті", u "كىلتى");
    (u "бір", HAMZA :: u "بىر");
    (u "әр", HAMZA :: u "ار");
    (u "іс", HAMZA :: u "ىس");
    (u "өз", HAMZA :: u "وز");
    (u "үшін", HAMZA :: u "ۇشىن");
    (u "тіл", HAMZA :: u "تىل");
    (u "өмір", HAMZA :: u "ومىر");
    (u "әнші", HAMZA :: u "انشى");
    (u "баспасөз", u "باسپاسوز");
    (u "емхана", u "ەمحانا");
    (u "өнерпаз", HAMZA :: u "ونەرپاز");
    (u "еңбекқор", u "ەڭبەكقور");
    (u "арбакеш", u "ارباكەش");
    (u "талапкер", u "تالاپكەر");
    (u "суретші", u "سۋرەتشى");
    (u "жауынгер", u "جاۋىنگەر");
    (u "бюджет", u "بۋدجەت");
    (u "диагноз", u "دىياگنوز");
    (u "токио", u "توكىيو");
    (u "тиісінше", u "تىيىسىنشە");
    (u "бірақ", u "بىراق");
    (u "дәріхана", u "دارىحانا");
    (u "сияз", u "سىيەز");
    (u "қияр", u "قىيار");
    (u "экологиялық", u "ەكولوگىيالىق");
    (u "нью-йорк", u "نىيۋ-يورك") ].

Definition LOANWORD_CONSONANTS : str := Eval vm_compute in u "фФвВцЦчЧ".

Definition LOANWORD_SUFFIXES : list str := Eval vm_compute in
  [u "ция"; u "сия"; u "ия"; u "ология"; u "графия"; u "логия"; u "ика"; u "изм"].

Definition I_INITIAL_NATIVE_WORDS : list str := Eval vm_compute in
  [u "иіс"; u "ине"; u "ит"; u "ию"; u "иір"; u "иіл"; u "ирі"; u "иық"; u "ин"].

Definition SOFT_PREFIXES_WITH_HARD_ROOT : list str := Eval vm_compute in
  [u "бес"; u "екі"; u "жеті"; u "сегіз"; u "тоғыз"].

Definition CONSONANTS : list (char * str) := Eval vm_compute in
  [ (ch "б", u "ب");
    (ch "Б", u "ب");
    (ch "в", u "ۆ");
    (ch "В", u "ۆ");
    (ch "г", u "گ");
    (ch "Г", u "گ");
    (ch "ғ", u "ع");
    (ch "Ғ", u "ع");
    (ch "д", u "د");
    (ch "Д", u "د");
    (ch "ж", u "ج");
    (ch "Ж", u "ج");
    (ch "з", u "ز");
    (ch "З", u "ز");
    (ch "й", u "ي");
    (ch "Й", u "ي");
    (ch "к", u "ك");
    (ch "К", u "ك");
    (ch "қ", u "ق");
    (ch "Қ", u "ق");
    (ch "л", u "ل");
    (ch "Л", u "ل");
    (ch "м", u "م");
    (ch "М", u "م");
    (ch "н", u "ن");
    (ch "Н", u "ن");
    (ch "ң", u "ڭ");
    (ch "Ң", u "ڭ");
    (ch "п", u "پ");
    (ch "П", u "پ");
    (ch "р", u "ر");
    (ch "Р", u "ر");
    (ch "с", u "س");
    (ch "С", u "س");
    (ch "т", u "ت");
    (ch "Т", u "ت");
    (ch "ф", u "ف");
    (ch "Ф", u "ف");
    (ch "х", u "ح");
    (ch "Х", u "ح");
    (ch "һ", u "ھ");
    (ch "Һ", u "ھ");
    (ch "ч", u "چ");
    (ch "Ч", u "چ");
    (ch "ш", u "ش");
    (ch "Ш", u "ش") ].

Definition VOWELS : list (char * str) := Eval vm_compute in
  [ (ch "а", u "ا");
    (ch "А", u "ا");
    (ch "ә", u "ا");
    (ch "Ә", u "ا");
    (ch "е", u "ە");
    (ch "Е", u "ە");
    (ch "о", u "و");
    (ch "О", u "و");
    (ch "ө", u "و");
    (ch "Ө", u "و");
    (ch "у", u "ۋ");
    (ch "У", u "ۋ");
    (ch "ұ", u "ۇ");
    (ch "Ұ", u "ۇ");
    (ch "ү", u "ۇ");
    (ch "Ү", u "ۇ");
    (ch "ы", u "ى");
    (ch "Ы", u "ى");
    (ch "і", u "ى");
    (ch "І", u "ى");
    (ch "э", u "ە");
    (ch "Э", u "ە") ].

Definition COMBINATIONS : list (char * str) := Eval vm_compute in
  [ (ch "ц", u "تس");
    (ch "Ц", u "تس");
    (ch "щ", u "شش");
    (ch "Щ", u "شش");
    (ch "ю", u "يۋ");
    (ch "Ю", u "يۋ");
    (ch "я", u "يا");
    (ch "Я", u "يا");
    (ch "ё", u "يو");
    (ch "Ё", u "يو") ].

Definition FRONT_VOWELS : str := Eval vm_compute in u "әӘеЕіІөӨүҮ".

Definition BACK_VOWELS : str := Eval vm_compute in u "аАоОұҰыЫуУ".

Definition ALL_VOWELS : str := Eval vm_compute in
  FRONT_VOWELS ++ BACK_VOWELS ++ u "иИэЭюЮяЯёЁ".

Definition HAMZA_SIGNAL_ARABIC : str := Eval vm_compute in u "كگە".

Definition HAMZA_SIGNAL_CYRILLIC : str := Eval vm_compute in u "кКгГеЕ".

Definition PUNCTUATION : list (str * str) := Eval vm_compute in
  [ (u ",", u "،");
    (u ".", u ".");
    (u ":", u ":");
    (u ";", u "؛");
    (u "?", u "؟");
    (u "!", u "!") ].

End Tables.
Import Tables.

(** ** Letters and literals the methods test against *)

Module Lit.

Definition soft_sign : char := Eval vm_compute in ch "ь".
Definition hard_sign : char := Eval vm_compute in ch "ъ".
Definition yu : char := Eval vm_compute in ch "ю".
Definition ya : char := Eval vm_compute in ch "я".
Definition tse : char := Eval vm_compute in ch "ц".
Definition shcha : char := Eval vm_compute in ch "щ".
Definition yo : char := Eval vm_compute in ch "ё".
Definition i_neutral : char := Eval vm_compute in ch "и".
Definition ie : char := Eval vm_compute in ch "е".
Definition IE : char := Eval vm_compute in ch "Е".
Definition hyphen : char := Eval vm_compute in ch "-".

(** ['қғ'], ['кг'] and ['кКгГ'] *)
Definition back_signal : str := Eval vm_compute in u "қғ".
Definition front_signal : str := Eval vm_compute in u "кг".
Definition k_or_g : str := Eval vm_compute in u "кКгГ".
(** қ and ғ in both cases, the letters whose case-folded form is in ['қғ']. *)
Definition back_signal_any_case : str := Eval vm_compute in u "қғҚҒ".
(** ['өүі'] *)
Definition high_front : str := Eval vm_compute in u "өүі".
(** The class of [r'[аәеоөұүіыиэ]{2,}'] and the local set [vowels] of
    [is_loanword]. *)
Definition hiatus_class : str := Eval vm_compute in u "аәеоөұүіыиэ".
Definition vowels : str := Eval vm_compute in u "аәеоөұүіыиэуюяё".

End Lit.
Import Lit.

(** ** Word classifier *)

Inductive harmony := back | front.

(** The first letter of [s] that is a front or a back vowel decides; [None]
    when the loop ends without a [return]. *)
Fixpoint first_vowel (s : str) : option harmony :=
  match s with
  | [] => None
  | char :: t =>
      if mem char FRONT_VOWELS then Some front
      else if mem char BACK_VOWELS then Some back
      else first_vowel t
  end.

(** The loop over [SOFT_PREFIXES_WITH_HARD_ROOT]: a prefix whose root holds
    no vowel lets the loop go on to the next prefix. *)
Fixpoint prefix_root_harmony (prefixes : list str) (word_lower : str)
  : option harmony :=
  match prefixes with
  | [] => None
  | prefix :: rest =>
      if startswith word_lower prefix
         && Nat.ltb (List.length prefix) (List.length word_lower)
      then match first_vowel (skipn (List.length prefix) word_lower) with
           | Some h => Some h
           | None => prefix_root_harmony rest word_lower
           end
      else prefix_root_harmony rest word_lower
  end.

Definition get_initial_harmony (word : str) : harmony :=
  let word_lower := lower word in
  if existsb (fun c => mem c back_signal) word_lower then back
  else if existsb (fun c => mem c front_signal) word_lower then front
  else if mem_str word_lower I_INITIAL_NATIVE_WORDS then front
  else match prefix_root_harmony SOFT_PREFIXES_WITH_HARD_ROOT word_lower with
       | Some h => h
       | None =>
           match first_vowel word_lower with
           | Some h => h
           | None => back
           end
       end.

Definition is_i_initial_native (word : str) : bool :=
  mem_str (lower word) I_INITIAL_NATIVE_WORDS.

(** Three tests of the class that no method on the way of [convert]
    calls. *)
Definition is_front_vowel_word (word : str) : bool :=
  existsb (fun char => mem char FRONT_VOWELS) (lower word).

Definition has_hamza_signal (word : str) : bool :=
  existsb (fun char => mem char HAMZA_SIGNAL_CYRILLIC) word.

Definition has_hamza_signal_arabic (arabic_word : str) : bool :=
  existsb (fun char => mem char HAMZA_SIGNAL_ARABIC) arabic_word.

(** The four tests of [is_loanword], in the order of the source. *)

Definition has_loanword_consonant (word : str) : bool :=
  existsb (fun char => mem char LOANWORD_CONSONANTS) word.

Definition has_loanword_suffix (word_lower : str) : bool :=
  existsb (fun suffix => endswith word_lower suffix) LOANWORD_SUFFIXES.

(** [re.search(r'[аәеоөұүіыиэ]{2,}', s)]: two neighbours in the class. *)
Fixpoint search_hiatus (s : str) : bool :=
  match s with
  | a :: (b :: _) as t =>
      (mem a hiatus_class && mem b hiatus_class) || search_hiatus t
  | _ => false
  end.

Definition has_vowel_hiatus (word_lower : str) : bool :=
  let temp_word :=
    replace (replace word_lower (u "иі") (u "_")) (u "іи") (u "_") in
  search_hiatus temp_word.

Fixpoint consonant_cluster (consonant_count : nat) (s : str) : bool :=
  match s with
  | [] => false
  | char :: t =>
      if isalpha char && negb (mem char vowels) then
        if Nat.leb 3 (S consonant_count) then true
        else consonant_cluster (S consonant_count) t
      else consonant_cluster 0 t
  end.

Definition is_loanword (word : str) : bool :=
  let word_lower := lower word in
  if mem_str word_lower I_INITIAL_NATIVE_WORDS then false
  else if has_loanword_consonant word then true
  else if has_loanword_suffix word_lower then true
  else if has_vowel_hiatus word_lower then true
  else consonant_cluster 0 word_lower.

(** ** Glottal-marker post-processor *)

(** [arabic_word.replace(self.HAMZA, '')] *)
Definition strip_hamza (arabic_word : str) : str :=
  replace arabic_word [HAMZA] [].

(** [if not arabic_word.startswith(self.HAMZA): return self.HAMZA +
    arabic_word] / [return arabic_word] *)
Definition prefix_hamza (arabic_word : str) : str :=
  if negb (startswith arabic_word [HAMZA]) then HAMZA :: arabic_word
  else arabic_word.

(** [word_lower and word_lower[0] in 'өүі'] *)
Definition starts_high_front (word_lower : str) : bool :=
  match word_lower with
  | [] => false
  | c :: _ => mem c high_front
  end.

(** The last [return arabic_word] of the source is reached only when the
    harmony is neither ['back'] nor ['front'], which [get_initial_harmony]
    never returns. *)
Definition apply_hamza_rule (arabic_word word : str) : str :=
  let is_loanword := is_loanword word in
  let is_i_native := is_i_initial_native word in
  if is_loanword then strip_hamza arabic_word
  else if is_i_native then prefix_hamza arabic_word
  else
    let has_k_or_g := existsb (fun char => mem char k_or_g) word in
    if has_k_or_g then strip_hamza arabic_word
    else
      let word_lower := lower word in
      let has_e := mem ie word_lower || mem IE word in
      if has_e then
        if starts_high_front word_lower then prefix_hamza arabic_word
        else strip_hamza arabic_word
      else if starts_high_front word_lower then prefix_hamza arabic_word
      else
        match get_initial_harmony word with
        | back => strip_hamza arabic_word
        | front => prefix_hamza arabic_word
        end.

(** ** Character transcriber *)

Definition has_key {V} (d : list (str * V)) (k : str) : bool :=
  match get d k with Some _ => true | None => false end.

Definition has_key_char {V} (d : list (char * V)) (k : char) : bool :=
  match get_char d k with Some _ => true | None => false end.

(** One turn of the [while] loop of [convert_word]: what is appended to
    [result] for [char = word[i]], where [prev] is [word[i-1]] when
    [i > 0]. *)
Definition transcribe_char (is_loanword : bool) (prev : option char)
    (char : char) : result str :=
  let char_lower := lower_char char in
  if (char_lower =? soft_sign) || (char_lower =? hard_sign) then OK []
  else if char_lower =? yu then
    if is_loanword then OK (u "ۋ") else OK (u "يۋ")
  else if (char_lower =? tse) || (char_lower =? shcha) || (char_lower =? yo)
  then subscript_char COMBINATIONS char_lower
  else if char_lower =? ya then
    match prev with
    | Some p => if lower_char p =? i_neutral then OK (u "ا") else OK (u "يا")
    | None => OK (u "يا")
    end
  else if char_lower =? i_neutral then OK (u "ىي")
  else if has_key_char CONSONANTS char then subscript_char CONSONANTS char
  else if has_key_char VOWELS char then subscript_char VOWELS char
  else OK [char].

(** The loop from index [i] on, [word] being [word[i:]] and [prev] the
    letter before it; the result is [''.join] of what is appended. *)
Fixpoint transcribe (is_loanword : bool) (prev : option char) (word : str)
  : result str :=
  match word with
  | [] => OK []
  | char :: t =>
      unit <- transcribe_char is_loanword prev char ;;
      rest <- transcribe is_loanword (Some char) t ;;
      OK (unit ++ rest)
  end.

(** [initial_harmony] and [is_front] are computed by the source and not
    used. *)
Definition convert_word (word : str) : result str :=
  match word with
  | [] => OK word
  | _ :: _ =>
      let word_lower := lower word in
      if has_key PROPER_NOUNS word_lower then subscript PROPER_NOUNS word_lower
      else if has_key COMMON_WORDS word_lower
      then subscript COMMON_WORDS word_lower
      else
        let is_loanword := is_loanword word in
        arabic_result <- transcribe is_loanword None word ;;
        OK (apply_hamza_rule arabic_result word)
  end.

(** ** Segmenter *)

Fixpoint mapM {A B} (f : A -> result B) (l : list A) : result (list B) :=
  match l with
  | [] => OK []
  | a :: t => b <- f a ;; bs <- mapM f t ;; OK (b :: bs)
  end.

Definition convert_compound_word (word : str) : result str :=
  match word with
  | [] => OK word
  | _ :: _ =>
      let word_lower := lower word in
      if has_key PROPER_NOUNS word_lower then subscript PROPER_NOUNS word_lower
      else if has_key COMMON_WORDS word_lower
      then subscript COMMON_WORDS word_lower
      else if mem hyphen word then
        converted_parts <- mapM convert_word (split hyphen word) ;;
        OK (join [hyphen] converted_parts)
      else convert_word word
  end.

(** The character class of [pattern]:
    [[а-яәіңғүұқөһёэъьА-ЯӘІҢҒҮҰҚӨҺЁЭЪЬ]]. *)
Definition is_letter (c : char) : bool :=
  ((ch "а" <=? c) && (c <=? ch "я")) || mem c (u "әіңғүұқөһёэъь")
  || ((ch "А" <=? c) && (c <=? ch "Я")) || mem c (u "ӘІҢҒҮҰҚӨҺЁЭЪЬ").

(** The rest of a match of [pattern] after its first letter: letters, then
    greedily every hyphen that a letter follows, with its letters.  Returns
    what is matched and what is left. *)
Fixpoint match_rest (s : str) : str * str :=
  match s with
  | [] => ([], [])
  | c :: t =>
      if is_letter c then
        let (m, r) := match_rest t in (c :: m, r)
      else if c =? hyphen then
        match t with
        | d :: _ =>
            if is_letter d then let (m, r) := match_rest t in (c :: m, r)
            else ([], s)
        | [] => ([], s)
        end
      else ([], s)
  end.

(** A match of [pattern] at the start of [s]. *)
Definition match_run (s : str) : option (str * str) :=
  match s with
  | c :: t =>
      if is_letter c then let (m, r) := match_rest t in Some (c :: m, r)
      else None
  | [] => None
  end.

(** [re.sub(pattern, lambda m: repl(m.group(0)), text)]: the matches are
    found from left to right and do not overlap, what lies between them is
    copied.  [skip] counts the letters of the current match still to be
    passed over. *)
Fixpoint re_sub (repl : str -> result str) (skip : nat) (text : str)
  : result str :=
  match text with
  | [] => OK []
  | c :: t =>
      match skip with
      | S k => re_sub repl k t
      | O =>
          match match_run text with
          | Some (m, _) =>
              out <- repl m ;;
              rest <- re_sub repl (Nat.pred (List.length m)) t ;;
              OK (out ++ rest)
          | None =>
              rest <- re_sub repl O t ;;
              OK (c :: rest)
          end
      end
  end.

(** The loop [for cyr, arab in self.PUNCTUATION.items()]. *)
Definition map_punctuation (text : str) : str :=
  fold_left (fun text '(cyr, arab) => replace text cyr arab) PUNCTUATION text.

Definition convert (text : str) : result str :=
  re_sub convert_compound_word O (map_punctuation text).

(** ** Notions the properties are stated with *)

(** A run: a string that [pattern] matches as a whole, that is letters of the
    class with single hyphens between them. *)
Definition is_run (w : str) : bool :=
  match match_run w with
  | Some (_, []) => true
  | _ => false
  end.

(** A word without hyphen: a non-empty string of letters of the class. *)
Definition is_word (w : str) : bool :=
  match w with
  | [] => false
  | _ :: _ => forallb is_letter w
  end.

(** The image of one letter under the punctuation table. *)
Definition punctuate (c : char) : str :=
  match get PUNCTUATION [c] with
  | Some arab => arab
  | None => [c]
  end.

(** The four criteria of the loanword test, without the exclusion of the
    i-initial native words that [is_loanword] begins with. *)
Definition loanword_criteria (word : str) : bool :=
  has_loanword_consonant word
  || has_loanword_suffix (lower word)
  || has_vowel_hiatus (lower word)
  || consonant_cluster 0 (lower word).

(** Two neighbours of [s] that are both in [letters]. *)
Fixpoint adjacent_in (letters : str) (s : str) : bool :=
  match s with
  | a :: (b :: _) as t =>
      (mem a letters && mem b letters) || adjacent_in letters t
  | _ => false
  end.

(** The hiatus criterion by the words of the specification: once the two
    legitimate sequences are collapsed, two adjacent vowel letters, a vowel
    letter being a letter of [ALL_VOWELS].  The code looks for two adjacent
    letters of a smaller class, which has no у, ю, я or ё. *)
Definition has_adjacent_vowels (word_lower : str) : bool :=
  let temp_word :=
    replace (replace word_lower (u "иі") (u "_")) (u "іи") (u "_") in
  adjacent_in ALL_VOWELS temp_word.

(** Step 5 of the specification's orchestrator, taken by its words:
    [applyMarker(transcribe(run), run)], with no dictionary lookup. *)
Definition rule_output (word : str) : result str :=
  arabic_result <- transcribe (is_loanword word) None word ;;
  OK (apply_hamza_rule arabic_result word).

(** What [convert_word] gives for one part of a compound: the stored value
    when the case-folded part is a key of a table, the rule output
    otherwise. *)
Definition part_output (part out : str) : Prop :=
  match get PROPER_NOUNS (lower part) with
  | Some v => out = v
  | None =>
      match get COMMON_WORDS (lower part) with
      | Some v => out = v
      | None => rule_output part = OK out
      end
  end.

(** The source letter just before position [length pre] of [pre ++ _], when
    [prev] is the one before [pre]. *)
Definition prev_of (prev : option char) (pre : str) : option char :=
  fold_left (fun _ c => Some c) pre prev.

(** The letter before is и, in either case. *)
Definition after_i_neutral (prev : option char) : bool :=
  match prev with
  | Some p => lower_char p =? i_neutral
  | None => false
  end.

(** The loanword test of a case-folded word: [is_loanword] with the word
    itself for its case-folded form. *)
Definition loanword_key (word_lower : str) : bool :=
  negb (mem_str word_lower I_INITIAL_NATIVE_WORDS)
  && (has_loanword_consonant word_lower
      || has_loanword_suffix word_lower
      || has_vowel_hiatus word_lower
      || consonant_cluster 0 word_lower).

(** No two markers at the head of a string. *)
Definition double_hamza_head (s : str) : bool :=
  match s with
  | a :: b :: _ => (a =? HAMZA) && (b =? HAMZA)
  | _ => false
  end.

(** ** The classifier of the specification

    The decision of the specification's classifier as a relation, with one
    constructor for each of its six rules, taken in its order: the premises
    of a rule are its own test and the failure of the tests of all the
    rules before it.  The vowel letters of rules 4 to 6 are those of the
    front and of the back set; и, э, ю, я and ё are in neither and are
    passed over. *)

(** [word] holds a letter of [letters]. *)
Definition holds (letters : str) (word : str) : bool :=
  existsb (fun c => mem c letters) word.

Definition vowels_of (h : harmony) : str :=
  match h with front => FRONT_VOWELS | back => BACK_VOWELS end.

(** [s] holds neither a front nor a back vowel. *)
Definition vowel_free (s : str) : bool :=
  forallb (fun c => negb (mem c FRONT_VOWELS) && negb (mem c BACK_VOWELS)) s.

(** The first front or back vowel of [s] is of the set of [h]. *)
Definition first_vowel_is (s : str) (h : harmony) : Prop :=
  exists pre v post,
    s = pre ++ v :: post /\ vowel_free pre = true
    /\ mem v (vowels_of h) = true.

Inductive classify (word : str) : harmony -> Prop :=
  | strong_back_consonant :
      holds back_signal_any_case word = true ->
      classify word back
  | strong_front_consonant :
      holds back_signal_any_case word = false ->
      holds k_or_g word = true ->
      classify word front
  | i_initial_native_word :
      holds back_signal_any_case word = false ->
      holds k_or_g word = false ->
      mem_str (lower word) I_INITIAL_NATIVE_WORDS = true ->
      classify word front
  | soft_prefix_and_root (prefix root : str) (h : harmony) :
      holds back_signal_any_case word = false ->
      holds k_or_g word = false ->
      mem_str (lower word) I_INITIAL_NATIVE_WORDS = false ->
      In prefix SOFT_PREFIXES_WITH_HARD_ROOT ->
      lower word = prefix ++ root ->
      first_vowel_is root h ->
      classify word h
  | first_vowel_of_word (h : harmony) :
      holds back_signal_any_case word = false ->
      holds k_or_g word = false ->
      mem_str (lower word) I_INITIAL_NATIVE_WORDS = false ->
      (forall prefix root,
         In prefix SOFT_PREFIXES_WITH_HARD_ROOT ->
         lower word = prefix ++ root -> vowel_free root = true) ->
      first_vowel_is (lower word) h ->
      classify word h
  | no_vowel_found :
      holds back_signal_any_case word = false ->
      holds k_or_g word = false ->
      mem_str (lower word) I_INITIAL_NATIVE_WORDS = false ->
      vowel_free (lower word) = true ->
      classify word back.

(** ** Notions the further properties are stated with *)

(** The letters of the class of [pattern], listed. *)
Definition alphabet : str := Eval vm_compute in
  filter is_letter (map N.of_nat (seq 1024 256)).

(** A code point that [convert] leaves alone: no letter of the class and
    its own image under the punctuation table. *)
Definition inert (c : char) : bool :=
  negb (is_letter c) && eqb_str (punctuate c) [c].

(** The text begins, or ends, with a letter of the class. *)
Definition starts_with_letter (s : str) : bool :=
  match s with
  | c :: _ => is_letter c
  | [] => false
  end.

Fixpoint ends_with_letter (s : str) : bool :=
  match s with
  | [] => false
  | [c] => is_letter c
  | _ :: t => ends_with_letter t
  end.

(** A code point [c] between [a] and [b] that no match of [pattern] can
    hold: it is no letter of the class, and when it is a hyphen it does not
    stand between two letters. *)
Definition is_boundary (a : str) (c : char) (b : str) : bool :=
  negb (is_letter c)
  && (negb (c =? hyphen)
      || negb (ends_with_letter a)
      || negb (starts_with_letter b)).

(** What a turn of the loop of [convert_word] can append, apart from the
    letter itself: nothing, the five literals of the loop and the values of
    the three tables. *)
Definition units : list str := Eval vm_compute in
  [] :: u "ۋ" :: u "يۋ" :: u "ا" :: u "يا" :: u "ىي"
  :: map snd COMBINATIONS ++ map snd CONSONANTS ++ map snd VOWELS.

(** The entries of [SOFT_PREFIXES_WITH_HARD_ROOT] that hold a signal
    consonant, and the two that hold none. *)
Definition signal_prefixes : list str := Eval vm_compute in
  [u "екі"; u "сегіз"; u "тоғыз"].

Definition plain_prefixes : list str := Eval vm_compute in
  [u "бес"; u "жеті"].

(** What a match of [pattern] is made of: letters of the class and
    hyphens. *)
Definition run_char (c : char) : bool := is_letter c || (c =? hyphen).

(** The length of parts joined by a one-letter separator. *)
Fixpoint joined_length (parts : list str) : nat :=
  match parts with
  | [] => 0
  | [p] => List.length p
  | p :: ps => List.length p + 1 + joined_length ps
  end.

(** A code point below the Cyrillic block that is its own image under the
    punctuation table: digits, Latin letters, spaces, hyphens and all the
    punctuation but the comma, the semicolon and the question mark. *)
Definition foreign (c : char) : bool :=
  (c <? 0x400) && eqb_str (punctuate c) [c].

(** ** Text splitting for segmented synthesis (src/app.py) *)

Module Split.

(** [str.isspace] of one code point; the class [\s] of [re] is the same
    set. *)
Definition isspace (c : char) : bool :=
  ((0x9 <=? c) && (c <=? 0xD)) || ((0x1C <=? c) && (c <=? 0x20))
  || (c =? 0x85) || (c =? 0xA0) || (c =? 0x1680)
  || ((0x2000 <=? c) && (c <=? 0x200A))
  || (c =? 0x2028) || (c =? 0x2029) || (c =? 0x202F) || (c =? 0x205F)
  || (c =? 0x3000).

Definition space : char := 0x20.
Definition CR : char := 0xD.
Definition LF : char := 0xA.

(** [s.strip()] *)
Fixpoint lstrip (s : str) : str :=
  match s with
  | [] => []
  | c :: t => if isspace c then lstrip t else s
  end.

Definition strip (s : str) : str := rev (lstrip (rev (lstrip s))).

(** [bool(s)] of a string. *)
Definition nonempty (s : str) : bool :=
  match s with [] => false | _ :: _ => true end.

Definition cons_head (c : char) (segments : list str) : list str :=
  match segments with
  | seg :: rest => (c :: seg) :: rest
  | [] => [[c]]
  end.

(** [re.split(r'(?<=[cls])\s*', text)], from a position on.  [s] is the
    text from that position, [after] tells that the code point before it is
    in the class, [in_match] that the position lies within a match, of
    which at least one white space has been read.  The first string of the
    result is what the segment open at that position goes on with.

    A match starts after a code point of the class and takes all the white
    space that follows; when there is none the match is empty, and the
    segment is cut all the same.  A match that ends on a line feed, which is
    in the class of the first pattern, is followed by an empty match, that
    is by an empty segment. *)
Fixpoint re_split_after (cls : str) (after in_match : bool) (s : str)
  : list str :=
  match s with
  | [] => if after then [[]; []] else [[]]
  | c :: t =>
      if isspace c && (in_match || after) then
        let rest := re_split_after cls (mem c cls) true t in
        if in_match then rest else [] :: rest
      else
        let rest := cons_head c (re_split_after cls (mem c cls) false t) in
        if after then [] :: rest else rest
  end.

Definition re_split (cls : str) (text : str) : list str :=
  re_split_after cls false false text.

(** One turn of the two packing loops of [split_text]: the piece joins the
    current chunk when both and a space fit in [max_length], and starts a
    new chunk otherwise, the current one being appended to the list unless
    it is empty. *)
Definition pack_step (max_length : Z) (state : str * list str) (piece : str)
  : str * list str :=
  let (current_chunk, chunks) := state in
  if (Z.of_nat (List.length current_chunk) + Z.of_nat (List.length piece) + 1
      <=? max_length)%Z
  then (strip (current_chunk ++ space :: piece), chunks)
  else (piece,
        if nonempty current_chunk then chunks ++ [current_chunk] else chunks).

(** A packing loop and the [if current_chunk: append] that follows it. *)
Definition pack (max_length : Z) (pieces : list str) : list str :=
  let (current_chunk, chunks) :=
    fold_left (pack_step max_length) pieces ([], []) in
  if nonempty current_chunk then chunks ++ [current_chunk] else chunks.

(** What the body of [for phrase in phrases] appends to
    [refined_segments]. *)
Definition refine_phrase (max_length : Z) (phrase : str) : list str :=
  let phrase := strip phrase in
  if negb (nonempty phrase) then []
  else if (Z.of_nat (List.length phrase) <=? max_length)%Z then [phrase]
  else
    let words := split space phrase in
    pack max_length (filter nonempty words).

(** What the body of [for seg in segments] appends to
    [refined_segments]. *)
Definition refine_segment (max_length : Z) (seg : str) : list str :=
  let seg := strip seg in
  if negb (nonempty seg) then []
  else if (Z.of_nat (List.length seg) <=? max_length)%Z then [seg]
  else
    let phrases := re_split (u ",;:") seg in
    flat_map (refine_phrase max_length) phrases.

Definition split_text (text : str) (max_length : Z) : list str :=
  let text := replace (replace text [CR; LF] [LF]) [CR] [LF] in
  let segments := re_split (u ".!?" ++ [LF]) text in
  let refined_segments := flat_map (refine_segment max_length) segments in
  pack max_length refined_segments.

(** White space taken out. *)
Definition no_space (s : str) : str := filter (fun c => negb (isspace c)) s.

(** A chunk within the limit, or of one word. *)
Definition within (max_length : Z) (chunk : str) : Prop :=
  (Z.of_nat (List.length chunk) <= max_length)%Z \/ ~ In space chunk.

End Split.

(** Boolean tests of the goal context as propositions. *)
Ltac to_prop :=
  repeat match goal with
    | H : (_ && _) = true |- _ => apply andb_true_iff in H; destruct H
    | H : (_ && _) = false |- _ => apply andb_false_iff in H
    | H : (_ || _) = true |- _ => apply orb_true_iff in H
    | H : (_ || _) = false |- _ => apply orb_false_iff in H; destruct H
    | H : (_ <=? _) = true |- _ => apply N.leb_le in H
    | H : (_ <=? _) = false |- _ => apply N.leb_gt in H
    | H : (_ =? _) = true |- _ => apply N.eqb_eq in H
    | H : (_ =? _) = false |- _ => apply N.eqb_neq in H
    end.

(** * Properties *)

(** ** Strings *)

Lemma eqb_str_eq (a b : str) : eqb_str a b = true <-> a = b.
Proof.
  unfold eqb_str. destruct (list_eq_dec N.eq_dec a b); split; congruence.
Qed.

Lemma eqb_str_refl (a : str) : eqb_str a a = true.
Proof. now apply eqb_str_eq. Qed.

Lemma mem_In (c : char) (s : str) : mem c s = true <-> In c s.
Proof.
  unfold mem. rewrite existsb_exists. split.
  - intros (x & Hx & E). apply N.eqb_eq in E. now subst.
  - intros H. exists c. split; [assumption | apply N.eqb_refl].
Qed.

Lemma mem_false (c : char) (s : str) : mem c s = false <-> ~ In c s.
Proof.
  rewrite <- mem_In. destruct (mem c s); split; congruence.
Qed.


Lemma get_In {V} (d : list (str * V)) (k : str) (v : V) :
  get d k = Some v -> In (k, v) d.
Proof.
  induction d as [| [k' v'] d IH]; simpl; [discriminate |].
  destruct (eqb_str k k') eqn:E.
  - apply eqb_str_eq in E. intros [= ->]. subst. now left.
  - intros H. right. auto.
Qed.


Lemma bind_ret_app_nil (m : result str) :
  (out <- m ;; OK (out ++ [])) = m.
Proof. destruct m; simpl; [now rewrite app_nil_r | reflexivity]. Qed.

(** Replacing a one-letter string works letter by letter. *)
Lemma replace_from_single (o : char) (new s : str) :
  replace_from [o] new O s
  = flat_map (fun c => if c =? o then new else [c]) s.
Proof.
  induction s as [| c t IH]; simpl; [reflexivity |].
  rewrite IH, N.eqb_sym, andb_true_r. now destruct (c =? o).
Qed.

Lemma strip_hamza_filter (r : str) :
  strip_hamza r = filter (fun c => negb (c =? HAMZA)) r.
Proof.
  unfold strip_hamza, replace. rewrite replace_from_single.
  induction r as [| c t IH]; simpl; [reflexivity |].
  rewrite IH. now destruct (c =? HAMZA).
Qed.

(** ** Case folding *)

(** Only қ, Қ, ғ and Ғ fold to a letter of ['қғ']. *)
Lemma lower_char_back_signal (c : char) :
  mem (lower_char c) back_signal = true -> mem c back_signal_any_case = true.
Proof.
  rewrite !mem_In. unfold back_signal, back_signal_any_case, lower_char.
  simpl.
  destruct ((0x41 <=? c) && (c <=? 0x5A)) eqn:E1;
  destruct ((0x400 <=? c) && (c <=? 0x40F)) eqn:E2;
  destruct ((0x410 <=? c) && (c <=? 0x42F)) eqn:E3;
  destruct (c =? 0x4C0) eqn:E4;
  destruct ((0x4C1 <=? c) && (c <=? 0x4CE)) eqn:E5;
  destruct ((0x48A <=? c) && (c <=? 0x4BF)) eqn:E6;
  try destruct (N.odd c); try destruct (N.even c);
  rewrite ?orb_true_r, ?orb_true_l, ?orb_false_r, ?orb_false_l;
  try destruct (((0x460 <=? c) && (c <=? 0x481))
                || ((0x4D0 <=? c) && (c <=? 0x52F))) eqn:E7;
  to_prop; lia.
Qed.

Lemma existsb_lower (f : char -> bool) (w : str) :
  existsb f (lower w) = existsb (fun c => f (lower_char c)) w.
Proof.
  induction w as [| c t IH]; simpl; [reflexivity | now rewrite IH].
Qed.

Lemma back_signal_lower (c : char) :
  In c back_signal_any_case -> mem (lower_char c) back_signal = true.
Proof.
  unfold back_signal_any_case. simpl.
  intros [<- | [<- | [<- | [<- | []]]]]; reflexivity.
Qed.

Lemma front_signal_lower (c : char) :
  In c k_or_g -> mem (lower_char c) front_signal = true.
Proof.
  unfold k_or_g. simpl.
  intros [<- | [<- | [<- | [<- | []]]]]; reflexivity.
Qed.

Lemma has_back_signal (word : str) :
  (exists c, In c word /\ In c back_signal_any_case) ->
  existsb (fun c => mem c back_signal) (lower word) = true.
Proof.
  intros (c & Hc & Hb). rewrite existsb_lower. apply existsb_exists.
  exists c. split; [assumption | now apply back_signal_lower].
Qed.

Lemma no_back_signal (word : str) :
  (forall c, In c word -> ~ In c back_signal_any_case) ->
  existsb (fun c => mem c back_signal) (lower word) = false.
Proof.
  intros H. rewrite existsb_lower.
  destruct (existsb _ word) eqn:E; [| reflexivity].
  apply existsb_exists in E. destruct E as (c & Hc & Hm).
  apply lower_char_back_signal, mem_In in Hm. now apply H in Hc.
Qed.

Lemma has_front_signal (word : str) :
  (exists c, In c word /\ In c k_or_g) ->
  existsb (fun c => mem c front_signal) (lower word) = true.
Proof.
  intros (c & Hc & Hk). rewrite existsb_lower. apply existsb_exists.
  exists c. split; [assumption | now apply front_signal_lower].
Qed.

Lemma lower_char_ge (c : char) : c <= lower_char c.
Proof.
  unfold lower_char.
  repeat match goal with
    | |- context [if ?b then _ else _] => destruct b eqn:?
    end; to_prop; lia.
Qed.

Lemma lower_char_below_letters (c : char) : c < 0x41 -> lower_char c = c.
Proof.
  intros H. unfold lower_char.
  replace (0x41 <=? c) with false by (symmetry; apply N.leb_gt; lia).
  replace (0x400 <=? c) with false by (symmetry; apply N.leb_gt; lia).
  replace (0x410 <=? c) with false by (symmetry; apply N.leb_gt; lia).
  replace (c =? 0x4C0) with false by (symmetry; apply N.eqb_neq; lia).
  replace (0x4C1 <=? c) with false by (symmetry; apply N.leb_gt; lia).
  replace (0x460 <=? c) with false by (symmetry; apply N.leb_gt; lia).
  replace (0x48A <=? c) with false by (symmetry; apply N.leb_gt; lia).
  replace (0x4D0 <=? c) with false by (symmetry; apply N.leb_gt; lia).
  reflexivity.
Qed.

(** Only the hyphen folds to the hyphen. *)
Lemma lower_char_hyphen (c : char) : (lower_char c =? hyphen) = (c =? hyphen).
Proof.
  unfold hyphen.
  destruct (N.eqb_spec c 45) as [-> | N]; [reflexivity |].
  apply N.eqb_neq. intros E. pose proof (lower_char_ge c) as G.
  rewrite lower_char_below_letters in E by lia. contradiction.
Qed.

(** Case folding and splitting at hyphens commute. *)
Lemma split_lower (w : str) :
  split hyphen (lower w) = map lower (split hyphen w).
Proof.
  induction w as [| c t IH]; [reflexivity |].
  cbn [lower map split]. fold (lower t).
  rewrite lower_char_hyphen, IH.
  destruct (c =? hyphen); [reflexivity |].
  now destruct (split hyphen t).
Qed.

(** ** Word classifier *)

(** [is_loanword] is the four criteria behind the guard of the i-initial
    native words. *)
Lemma is_loanword_criteria (word : str) :
  is_loanword word = negb (is_i_initial_native word) && loanword_criteria word.
Proof.
  unfold is_loanword, is_i_initial_native, loanword_criteria.
  destruct (mem_str (lower word) I_INITIAL_NATIVE_WORDS); simpl;
    [reflexivity |].
  destruct (has_loanword_consonant word); simpl; [reflexivity |].
  destruct (has_loanword_suffix (lower word)); simpl; [reflexivity |].
  now destruct (has_vowel_hiatus (lower word)).
Qed.

(** ** Glottal-marker post-processor *)

Lemma strip_hamza_no_marker (r : str) : ~ In HAMZA (strip_hamza r).
Proof.
  rewrite strip_hamza_filter. intros H. apply filter_In in H.
  destruct H as [_ H]. now rewrite N.eqb_refl in H.
Qed.

Lemma strip_hamza_idempotent (r : str) :
  strip_hamza (strip_hamza r) = strip_hamza r.
Proof.
  rewrite !strip_hamza_filter. induction r as [| c t IH]; simpl;
    [reflexivity |].
  destruct (c =? HAMZA) eqn:E; simpl; [assumption |].
  now rewrite E, IH.
Qed.


Lemma prefix_hamza_startswith (r : str) :
  startswith (prefix_hamza r) [HAMZA] = true.
Proof.
  unfold prefix_hamza. destruct (startswith r [HAMZA]) eqn:E; cbn [negb].
  - assumption.
  - cbn [startswith]. now rewrite N.eqb_refl.
Qed.

Lemma prefix_hamza_fixed (r : str) :
  startswith r [HAMZA] = true -> prefix_hamza r = r.
Proof. unfold prefix_hamza. now intros ->. Qed.

Lemma prefix_hamza_idempotent (r : str) :
  prefix_hamza (prefix_hamza r) = prefix_hamza r.
Proof. apply prefix_hamza_fixed, prefix_hamza_startswith. Qed.

Lemma prefix_hamza_no_double (r : str) :
  double_hamza_head r = false -> double_hamza_head (prefix_hamza r) = false.
Proof.
  unfold prefix_hamza. destruct r as [| c t]; [reflexivity |].
  cbn [startswith]. rewrite andb_true_r.
  destruct (N.eqb_spec HAMZA c) as [E | E]; cbn [negb]; [trivial |].
  intros _. cbn [double_hamza_head].
  apply not_eq_sym, N.eqb_neq in E. now rewrite E, andb_false_r.
Qed.

(** Which of the two treatments a word gets depends on the source word
    alone. *)
Lemma apply_hamza_rule_branch (word : str) :
  (forall r, apply_hamza_rule r word = strip_hamza r)
  \/ (forall r, apply_hamza_rule r word = prefix_hamza r).
Proof.
  unfold apply_hamza_rule.
  destruct (is_loanword word); [now left |].
  destruct (is_i_initial_native word); [now right |].
  destruct (existsb _ word); [now left |].
  destruct (mem ie (lower word) || mem IE word);
    destruct (starts_high_front (lower word));
    try (now left); try (now right).
  destruct (get_initial_harmony word); [now left | now right].
Qed.

(** C7.  The marker rule is idempotent.  Each of its branches either strips,
    and then no marker is left anywhere in the result, or inserts, and then a
    string that already begins with the marker is returned as it is, so that
    the insertion puts no second marker in front of a first. *)
Theorem C7_apply_hamza_rule_idempotent (arabic_word word : str) :
  apply_hamza_rule (apply_hamza_rule arabic_word word) word
  = apply_hamza_rule arabic_word word
  /\ ((apply_hamza_rule arabic_word word = strip_hamza arabic_word
       /\ ~ In HAMZA (apply_hamza_rule arabic_word word))
      \/ (apply_hamza_rule arabic_word word = prefix_hamza arabic_word
          /\ (startswith arabic_word [HAMZA] = true ->
              apply_hamza_rule arabic_word word = arabic_word)
          /\ (double_hamza_head arabic_word = false ->
              double_hamza_head (apply_hamza_rule arabic_word word) = false))).
Proof.
  destruct (apply_hamza_rule_branch word) as [H | H]; rewrite !H.
  - split; [apply strip_hamza_idempotent |].
    left. split; [reflexivity | apply strip_hamza_no_marker].
  - split; [apply prefix_hamza_idempotent |].
    right. split; [reflexivity |].
    split; [apply prefix_hamza_fixed | apply prefix_hamza_no_double].
Qed.

(** іс is given the marker once, and a second pass leaves it alone. *)
Lemma C7_apply_hamza_rule_witness :
  apply_hamza_rule (apply_hamza_rule (u "ىس") (u "іс")) (u "іс")
  = apply_hamza_rule (u "ىس") (u "іс")
  /\ apply_hamza_rule (u "ىس") (u "іс") = HAMZA :: u "ىس".
Proof.
  split; [| reflexivity].
  apply (proj1 (C7_apply_hamza_rule_idempotent (u "ىس") (u "іс"))).
Defined.

(** C10.  A word whose case-folded form is in the set of i-initial native
    words is never a loanword for [is_loanword], whatever the four criteria
    say of it: the guard comes first.  The marker rule therefore does not
    strip such a word at its loanword branch but prefixes the marker. *)
Theorem C10_i_initial_native_is_not_loanword (word : str) :
  is_i_initial_native word = true ->
  is_loanword word = false
  /\ forall arabic_word,
      apply_hamza_rule arabic_word word = prefix_hamza arabic_word
      /\ startswith (apply_hamza_rule arabic_word word) [HAMZA] = true.
Proof.
  intros Hn.
  assert (Hl : is_loanword word = false)
    by (rewrite is_loanword_criteria, Hn; reflexivity).
  split; [assumption |]. intros r.
  assert (E : apply_hamza_rule r word = prefix_hamza r)
    by (unfold apply_hamza_rule; rewrite Hl, Hn; reflexivity).
  rewrite E. split; [reflexivity | apply prefix_hamza_startswith].
Qed.

(** иық is in the set and has the vowel hiatus иы, which the two collapsed
    pairs do not cover: the criteria hold, and [is_loanword] is false. *)
Lemma C10_i_initial_native_witness :
  loanword_criteria (u "иық") = true
  /\ has_vowel_hiatus (lower (u "иық")) = true
  /\ is_loanword (u "иық") = false
  /\ forall arabic_word,
      apply_hamza_rule arabic_word (u "иық") = prefix_hamza arabic_word
      /\ startswith (apply_hamza_rule arabic_word (u "иық")) [HAMZA] = true.
Proof.
  split; [reflexivity |]. split; [reflexivity |].
  apply (C10_i_initial_native_is_not_loanword (u "иық")). reflexivity.
Defined.

(** ** Character transcriber *)

Lemma subscript_char_has_key {V} (d : list (char * V)) (k : char) :
  has_key_char d k = true -> exists v, subscript_char d k = OK v.
Proof.
  unfold has_key_char, subscript_char.
  destruct (get_char d k) as [v |]; [now exists v | discriminate].
Qed.

Lemma subscript_has_key {V} (d : list (str * V)) (k : str) :
  has_key d k = true -> exists v, subscript d k = OK v /\ get d k = Some v.
Proof.
  unfold has_key, subscript.
  destruct (get d k) as [v |]; [now exists v | discriminate].
Qed.

(** No turn of the loop raises: the three letters sent to [COMBINATIONS] are
    keys of it, and the two other subscripts are guarded. *)
Lemma transcribe_char_total (is_loanword : bool) (prev : option char)
    (char : char) :
  exists unit, transcribe_char is_loanword prev char = OK unit.
Proof.
  unfold transcribe_char.
  destruct ((lower_char char =? soft_sign) || (lower_char char =? hard_sign));
    [now eexists |].
  destruct (lower_char char =? yu);
    [destruct is_loanword; now eexists |].
  destruct ((lower_char char =? tse) || (lower_char char =? shcha)
            || (lower_char char =? yo)) eqn:E.
  { apply orb_true_iff in E. destruct E as [E | E];
      [apply orb_true_iff in E; destruct E as [E | E] |];
      apply N.eqb_eq in E; rewrite E; now eexists. }
  destruct (lower_char char =? ya).
  { destruct prev as [p |]; [destruct (lower_char p =? i_neutral) |];
      now eexists. }
  destruct (lower_char char =? i_neutral); [now eexists |].
  destruct (has_key_char CONSONANTS char) eqn:Ec;
    [now apply subscript_char_has_key |].
  destruct (has_key_char VOWELS char) eqn:Ev;
    [now apply subscript_char_has_key |].
  now eexists.
Qed.

Lemma transcribe_total (is_loanword : bool) (word : str) :
  forall prev, exists raw, transcribe is_loanword prev word = OK raw.
Proof.
  induction word as [| c t IH]; intros prev; simpl; [now eexists |].
  destruct (transcribe_char_total is_loanword prev c) as (unit & ->).
  destruct (IH (Some c)) as (rest & ->). simpl. now eexists.
Qed.

Lemma transcribe_app (is_loanword : bool) (pre post : str) :
  forall prev,
    transcribe is_loanword prev (pre ++ post)
    = (a <- transcribe is_loanword prev pre ;;
       b <- transcribe is_loanword (prev_of prev pre) post ;;
       OK (a ++ b)).
Proof.
  induction pre as [| c t IH]; intros prev; simpl.
  - unfold prev_of. simpl. now destruct (transcribe _ _ post).
  - destruct (transcribe_char is_loanword prev c) as [unit | e]; simpl;
      [| reflexivity].
    rewrite IH. unfold prev_of. simpl.
    destruct (transcribe is_loanword (Some c) t) as [a | e]; simpl;
      [| reflexivity].
    destruct (transcribe is_loanword _ post) as [b | e]; simpl;
      [| reflexivity].
    now rewrite app_assoc.
Qed.

(** C6.  In the transcription of a word [pre ++ c :: post], the turn for the
    letter [c] sees the source letter that stands just before it, [prev_of
    prev pre], whatever was emitted for that letter.  When [c] is я (either
    case) the turn emits the bare ا if that source letter is и (either case)
    and the digraph يا otherwise; when [c] is и it emits ىي, whatever the
    position and the loanword status. *)
Theorem C6_ya_looks_at_previous_source_letter
    (is_loanword : bool) (prev : option char) (pre : str) (c : char)
    (post : str) :
  transcribe is_loanword prev (pre ++ c :: post)
  = (a <- transcribe is_loanword prev pre ;;
     unit <- transcribe_char is_loanword (prev_of prev pre) c ;;
     b <- transcribe is_loanword (Some c) post ;;
     OK (a ++ unit ++ b))
  /\ (lower_char c = ya ->
      transcribe_char is_loanword (prev_of prev pre) c
      = OK (if after_i_neutral (prev_of prev pre) then u "ا" else u "يا"))
  /\ (lower_char c = i_neutral ->
      transcribe_char is_loanword (prev_of prev pre) c = OK (u "ىي")).
Proof.
  split; [| split].
  - rewrite transcribe_app. simpl.
    destruct (transcribe is_loanword prev pre) as [a | e]; simpl;
      [| reflexivity].
    destruct (transcribe_char _ _ c) as [unit | e]; simpl; [| reflexivity].
    now destruct (transcribe is_loanword (Some c) post).
  - intros Hc. unfold transcribe_char, after_i_neutral. rewrite Hc.
    destruct (prev_of prev pre) as [p |]; [| reflexivity].
    now destruct (lower_char p =? i_neutral).
  - intros Hc. unfold transcribe_char. now rewrite Hc.
Qed.

(** In ия the я comes after the source letter и and gives ا; in иья it comes
    after ь, for which nothing was emitted, and gives يا although the last
    letters emitted are those of и. *)
Lemma C6_ya_witness :
  transcribe false None (u "ия") = OK (u "ىيا")
  /\ transcribe false None (u "иья") = OK (u "ىييا")
  /\ transcribe_char false (prev_of None (u "и")) (ch "я") = OK (u "ا")
  /\ transcribe_char false (prev_of None (u "иь")) (ch "Я") = OK (u "يا")
  /\ transcribe_char true (prev_of None (u "қ")) (ch "И") = OK (u "ىي").
Proof.
  split; [reflexivity |]. split; [reflexivity |].
  split; [| split].
  - apply (proj1 (proj2 (C6_ya_looks_at_previous_source_letter
                           false None (u "и") (ch "я") []))).
    reflexivity.
  - apply (proj1 (proj2 (C6_ya_looks_at_previous_source_letter
                           false None (u "иь") (ch "Я") []))).
    reflexivity.
  - apply (proj2 (proj2 (C6_ya_looks_at_previous_source_letter
                           true None (u "қ") (ch "И") []))).
    reflexivity.
Defined.

(** ** Segmenter: the pattern and [re.sub] *)

Lemma match_rest_app (s : str) :
  forall m r, match_rest s = (m, r) -> s = m ++ r.
Proof.
  induction s as [| c t IH]; intros m r; simpl.
  - now intros [= <- <-].
  - destruct (is_letter c).
    + destruct (match_rest t) as [m' r'] eqn:E. intros [= <- <-].
      simpl. f_equal. now apply IH.
    + destruct (c =? hyphen); [| now intros [= <- <-]].
      destruct t as [| d t']; [now intros [= <- <-] |].
      destruct (is_letter d); [| now intros [= <- <-]].
      destruct (match_rest (d :: t')) as [m' r'] eqn:E. intros [= <- <-].
      simpl. f_equal. now apply IH.
Qed.

Lemma match_run_app (s m r : str) :
  match_run s = Some (m, r) -> s = m ++ r.
Proof.
  destruct s as [| c t]; simpl; [discriminate |].
  destruct (is_letter c); [| discriminate].
  destruct (match_rest t) as [m' r'] eqn:E. intros [= <- <-].
  simpl. f_equal. now apply match_rest_app.
Qed.

(** What a match holds: letters of the class and hyphens. *)
Lemma match_rest_letters (s : str) :
  forall m r, match_rest s = (m, r) ->
    Forall (fun c => is_letter c = true \/ c = hyphen) m.
Proof.
  induction s as [| c t IH]; intros m r; simpl.
  - intros [= <- <-]. constructor.
  - destruct (is_letter c) eqn:L.
    + destruct (match_rest t) as [m' r'] eqn:E. intros [= <- <-].
      constructor; [now left | now apply (IH m' r')].
    + destruct (c =? hyphen) eqn:Eh; [| intros [= <- <-]; constructor].
      destruct t as [| d t']; [intros [= <- <-]; constructor |].
      destruct (is_letter d); [| intros [= <- <-]; constructor].
      destruct (match_rest (d :: t')) as [m' r'] eqn:E. intros [= <- <-].
      constructor; [right; now apply N.eqb_eq | now apply (IH m' r')].
Qed.

Lemma is_run_match (w : str) :
  is_run w = true -> match_run w = Some (w, []).
Proof.
  unfold is_run. destruct (match_run w) as [[m r] |] eqn:E; [| discriminate].
  destruct r; [| discriminate]. intros _.
  apply match_run_app in E. rewrite app_nil_r in E. now subst.
Qed.

Lemma is_run_letters (w : str) :
  is_run w = true -> Forall (fun c => is_letter c = true \/ c = hyphen) w.
Proof.
  intros H. apply is_run_match in H. destruct w as [| c t]; [constructor |].
  simpl in H. destruct (is_letter c) eqn:L; [| discriminate].
  destruct (match_rest t) as [m r] eqn:E. injection H as -> ->.
  constructor; [now left | now apply (match_rest_letters t t [])].
Qed.

Lemma match_rest_all_letters (t : str) :
  forallb is_letter t = true -> match_rest t = (t, []).
Proof.
  induction t as [| c t IH]; simpl; [reflexivity |].
  intros H. apply andb_true_iff in H. destruct H as [-> H].
  now rewrite (IH H).
Qed.

Lemma is_word_is_run (w : str) : is_word w = true -> is_run w = true.
Proof.
  unfold is_word, is_run. destruct w as [| c t]; [discriminate |].
  simpl. intros H. apply andb_true_iff in H. destruct H as [-> H].
  now rewrite (match_rest_all_letters t H).
Qed.

Lemma hyphen_not_letter : is_letter hyphen = false.
Proof. reflexivity. Qed.

Lemma is_word_no_hyphen (w : str) : is_word w = true -> mem hyphen w = false.
Proof.
  unfold is_word. destruct w as [| c t]; [discriminate |].
  intros H. apply mem_false. intros Hin.
  rewrite forallb_forall in H. apply H in Hin.
  now rewrite hyphen_not_letter in Hin.
Qed.

(** Passing over the letters of a match. *)
Lemma re_sub_skip (repl : str -> result str) (m r : str) :
  re_sub repl (List.length m) (m ++ r) = re_sub repl O r.
Proof.
  induction m as [| c t IH]; simpl; [now destruct r | assumption].
Qed.

Lemma re_sub_match (repl : str -> result str) (text m r : str) :
  match_run text = Some (m, r) ->
  re_sub repl O text
  = (out <- repl m ;; rest <- re_sub repl O r ;; OK (out ++ rest)).
Proof.
  intros H. pose proof (match_run_app _ _ _ H) as E.
  destruct text as [| c t]; [discriminate |].
  cbn [re_sub]. rewrite H.
  destruct m as [| c' m']; [simpl in H; destruct (is_letter c);
    [destruct (match_rest t); discriminate | discriminate] |].
  simpl in E. injection E as <- ->. simpl List.length. cbn [Nat.pred].
  now rewrite re_sub_skip.
Qed.

Lemma re_sub_no_match (repl : str -> result str) (c : char) (t : str) :
  is_letter c = false ->
  re_sub repl O (c :: t) = (rest <- re_sub repl O t ;; OK (c :: rest)).
Proof. intros H. cbn [re_sub match_run]. now rewrite H. Qed.

(** A text without a letter of the class is copied. *)
Lemma re_sub_no_letter (repl : str -> result str) (text : str) :
  forallb (fun c => negb (is_letter c)) text = true ->
  re_sub repl O text = OK text.
Proof.
  induction text as [| c t IH]; [reflexivity |].
  cbn [forallb]. intros H. apply andb_true_iff in H. destruct H as [Hc Ht].
  apply negb_true_iff in Hc. rewrite (re_sub_no_match repl c t Hc).
  now rewrite (IH Ht).
Qed.

(** A run is replaced as a whole. *)
Lemma re_sub_run (repl : str -> result str) (w : str) :
  is_run w = true -> re_sub repl O w = repl w.
Proof.
  intros H. rewrite (re_sub_match repl w w [] (is_run_match w H)).
  simpl. apply bind_ret_app_nil.
Qed.

(** [re.sub] raises only if the replacement function does. *)
Lemma re_sub_total (repl : str -> result str) :
  (forall m, exists out, repl m = OK out) ->
  forall text skip, exists out, re_sub repl skip text = OK out.
Proof.
  intros Hrepl. induction text as [| c t IH]; intros skip;
    [now exists [] |].
  cbn [re_sub]. destruct skip as [| k]; [| apply IH].
  destruct (match_run (c :: t)) as [[m r] |].
  - destruct (Hrepl m) as (out & ->).
    destruct (IH (Nat.pred (List.length m))) as (rest & ->).
    simpl. now eexists.
  - destruct (IH O) as (rest & ->). simpl. now eexists.
Qed.

(** ** Segmenter: punctuation *)

Lemma eqb_str_single (c k : char) : eqb_str [c] [k] = (c =? k).
Proof.
  destruct (N.eqb_spec c k) as [-> | N]; [apply eqb_str_refl |].
  destruct (eqb_str [c] [k]) eqn:E; [| reflexivity].
  apply eqb_str_eq in E. congruence.
Qed.

Lemma map_punctuation_app (a b : str) :
  map_punctuation (a ++ b) = map_punctuation a ++ map_punctuation b.
Proof.
  unfold map_punctuation, PUNCTUATION, replace. cbn [fold_left].
  rewrite !replace_from_single. now rewrite !flat_map_app.
Qed.

Lemma map_punctuation_single (c : char) :
  map_punctuation [c] = punctuate c.
Proof.
  unfold map_punctuation, punctuate, PUNCTUATION, replace.
  cbn [fold_left get]. rewrite !replace_from_single, !eqb_str_single.
  destruct (N.eqb_spec c 44) as [-> | N1]; [reflexivity |].
  destruct (N.eqb_spec c 46) as [-> | N2]; [reflexivity |].
  destruct (N.eqb_spec c 58) as [-> | N3]; [reflexivity |].
  destruct (N.eqb_spec c 59) as [-> | N4]; [reflexivity |].
  destruct (N.eqb_spec c 63) as [-> | N5]; [reflexivity |].
  destruct (N.eqb_spec c 33) as [-> | N6]; [reflexivity |].
  apply N.eqb_neq in N1, N2, N3, N4, N5, N6.
  cbn [flat_map app]. rewrite N1. cbn [flat_map app]. rewrite N2.
  cbn [flat_map app]. rewrite N3. cbn [flat_map app]. rewrite N4.
  cbn [flat_map app]. rewrite N5. cbn [flat_map app]. rewrite N6.
  reflexivity.
Qed.

(** The six replacements together map every letter by the table. *)
Lemma map_punctuation_flat_map (text : str) :
  map_punctuation text = flat_map punctuate text.
Proof.
  induction text as [| c t IH]; [reflexivity |].
  change (c :: t) with ([c] ++ t).
  now rewrite map_punctuation_app, map_punctuation_single, IH.
Qed.

Lemma is_letter_cyrillic (c : char) : is_letter c = true -> 0x400 < c.
Proof.
  unfold is_letter. intros H. apply orb_true_iff in H.
  destruct H as [H | H];
    [apply orb_true_iff in H; destruct H as [H | H];
       [apply orb_true_iff in H; destruct H as [H | H] |] |].
  - vm_compute (ch _) in H. to_prop. lia.
  - apply mem_In in H. vm_compute in H.
    repeat (destruct H as [<- | H]; [reflexivity |]). destruct H.
  - vm_compute (ch _) in H. to_prop. lia.
  - apply mem_In in H. vm_compute in H.
    repeat (destruct H as [<- | H]; [reflexivity |]). destruct H.
Qed.

Lemma punctuate_above (c : char) : 0x40 < c -> punctuate c = [c].
Proof.
  intros H. unfold punctuate, PUNCTUATION. cbn [get].
  rewrite !eqb_str_single.
  repeat match goal with
    | |- context [c =? ?k] =>
        replace (c =? k) with false by (symmetry; apply N.eqb_neq; lia)
    end.
  reflexivity.
Qed.

Lemma punctuate_letter (c : char) : is_letter c = true -> punctuate c = [c].
Proof.
  intros H. apply is_letter_cyrillic in H. apply punctuate_above. lia.
Qed.

(** The images of the punctuation table hold no letter of the class. *)
Lemma punctuate_no_letter (c : char) :
  is_letter c = false ->
  forallb (fun c => negb (is_letter c)) (punctuate c) = true.
Proof.
  intros H. unfold punctuate, PUNCTUATION. cbn [get].
  rewrite !eqb_str_single.
  repeat match goal with
    | |- context [c =? ?k] => destruct (c =? k); [reflexivity |]
    end.
  cbn [forallb]. now rewrite H.
Qed.

Lemma map_punctuation_run (w : str) :
  is_run w = true -> map_punctuation w = w.
Proof.
  intros H. apply is_run_letters in H. rewrite map_punctuation_flat_map.
  induction H as [| c t Hc _ IH]; [reflexivity |].
  cbn [flat_map]. rewrite IH.
  destruct Hc as [Hc | ->]; [now rewrite (punctuate_letter c Hc) |].
  reflexivity.
Qed.

Lemma map_punctuation_no_letter (text : str) :
  forallb (fun c => negb (is_letter c)) text = true ->
  forallb (fun c => negb (is_letter c)) (map_punctuation text) = true.
Proof.
  rewrite map_punctuation_flat_map.
  induction text as [| c t IH]; [reflexivity |].
  cbn [forallb flat_map]. intros H. apply andb_true_iff in H.
  destruct H as [Hc Ht]. apply negb_true_iff in Hc.
  rewrite forallb_app, (punctuate_no_letter c Hc). now apply IH.
Qed.

(** On a run, [convert] is [convert_compound_word]. *)
Lemma convert_run (w : str) :
  is_run w = true -> convert w = convert_compound_word w.
Proof.
  intros H. unfold convert. rewrite (map_punctuation_run w H).
  now apply re_sub_run.
Qed.

Lemma convert_compound_word_no_hyphen (w : str) :
  mem hyphen w = false -> convert_compound_word w = convert_word w.
Proof.
  intros H. unfold convert_compound_word, convert_word.
  destruct w as [| c t]; [reflexivity |]. rewrite H.
  destruct (has_key PROPER_NOUNS (lower (c :: t))); [reflexivity |].
  now destruct (has_key COMMON_WORDS (lower (c :: t))).
Qed.

(** On a word without hyphen, [convert] is [convert_word]. *)
Lemma convert_word_run (w : str) :
  is_word w = true -> convert w = convert_word w.
Proof.
  intros H. rewrite (convert_run w (is_word_is_run w H)).
  apply convert_compound_word_no_hyphen. now apply is_word_no_hyphen.
Qed.

(** ** Totality *)

Lemma convert_word_total (word : str) :
  exists out, convert_word word = OK out.
Proof.
  unfold convert_word. destruct word as [| c t]; [now eexists |].
  destruct (has_key PROPER_NOUNS _) eqn:Ep.
  { destruct (subscript_has_key _ _ Ep) as (v & -> & _). now eexists. }
  destruct (has_key COMMON_WORDS _) eqn:Ec.
  { destruct (subscript_has_key _ _ Ec) as (v & -> & _). now eexists. }
  destruct (transcribe_total (is_loanword (c :: t)) (c :: t) None)
    as (raw & ->).
  simpl. now eexists.
Qed.

Lemma mapM_total {A B} (f : A -> result B) (l : list A) :
  (forall a, exists b, f a = OK b) -> exists bs, mapM f l = OK bs.
Proof.
  intros Hf. induction l as [| a t (bs & IH)]; simpl; [now eexists |].
  destruct (Hf a) as (b & ->). rewrite IH. simpl. now eexists.
Qed.

Lemma convert_compound_word_total (word : str) :
  exists out, convert_compound_word word = OK out.
Proof.
  unfold convert_compound_word. destruct word as [| c t]; [now eexists |].
  destruct (has_key PROPER_NOUNS _) eqn:Ep.
  { destruct (subscript_has_key _ _ Ep) as (v & -> & _). now eexists. }
  destruct (has_key COMMON_WORDS _) eqn:Ec.
  { destruct (subscript_has_key _ _ Ec) as (v & -> & _). now eexists. }
  destruct (mem hyphen (c :: t)); [| apply convert_word_total].
  destruct (mapM_total convert_word (split hyphen (c :: t))
              convert_word_total) as (outs & ->).
  simpl. now eexists.
Qed.

(** C9.  [convert] is total: whatever the text, it returns a string and no
    subscript of the converter raises. *)
Theorem C9_convert_total (text : str) : exists out, convert text = OK out.
Proof.
  unfold convert. apply re_sub_total, convert_compound_word_total.
Qed.

(** The empty text, a text of two scripts and a text with no letter of the
    class. *)
Example convert_total_examples :
  convert [] = OK []
  /\ convert (u "Salem, әлем - 2024!") = OK (u "Salem، الەم - 2024!")
  /\ convert (u "abc 12; -?") = OK (u "abc 12؛ -؟").
Proof. split; [| split]; reflexivity. Qed.

(** ** Dictionary short-circuit *)

(** C1.  For every word [w], that is every run (letters of the class with
    single hyphens between them), whose case-folded form is a key of the
    proper-noun table or, failing that, of the exception-word table,
    [convert w] is the value stored for that key, the proper-noun table
    being looked up first. *)
Theorem C1_run_in_dictionary (w v : str) :
  is_run w = true ->
  get PROPER_NOUNS (lower w) = Some v
  \/ (get PROPER_NOUNS (lower w) = None
      /\ get COMMON_WORDS (lower w) = Some v) ->
  convert w = OK v.
Proof.
  intros Hrun Hget. rewrite (convert_run w Hrun).
  unfold convert_compound_word, has_key, subscript.
  destruct w as [| c t]; [discriminate |].
  destruct Hget as [-> | [-> ->]]; reflexivity.
Qed.

Lemma C1_run_in_dictionary_witness :
  convert (u "ҚАЗАҚСТАН") = OK (u "قازاقستان")
  /\ convert (u "Нью-Йорк") = OK (u "نىيۋ-يورك").
Proof.
  split.
  - apply (C1_run_in_dictionary (u "ҚАЗАҚСТАН")); [reflexivity |].
    left. reflexivity.
  - apply (C1_run_in_dictionary (u "Нью-Йорк")); [reflexivity |].
    right. split; reflexivity.
Defined.

(** A key that holds a space is no word, and [convert] never looks it up:
    the two words of the key орталық комитет of the proper-noun table are
    converted one by one, and neither is a key. *)
Example phrase_key_is_converted_word_by_word :
  get PROPER_NOUNS (lower (u "орталық комитет")) = Some (u "ورتالىق كوميتەت")
  /\ convert (u "орталық комитет") = OK (u "ورتالىق كومىيتەت")
  /\ convert (u "орталық комитет") <> OK (u "ورتالىق كوميتەت").
Proof. split; [reflexivity | split; [reflexivity | discriminate]]. Qed.

(** ** Text without letters *)

(** C8.  A text that holds no letter of the class of the pattern comes back
    with every sign of the punctuation table replaced by its image and every
    other code point (digits, Latin letters, target-script text, other
    punctuation) as it is, in the same order: [punctuate] maps a code point
    that is no key of the table to itself. *)
Theorem C8_text_without_letters (s : str) :
  forallb (fun c => negb (is_letter c)) s = true ->
  convert s = OK (flat_map punctuate s).
Proof.
  intros H. unfold convert.
  rewrite (re_sub_no_letter _ _ (map_punctuation_no_letter s H)).
  now rewrite map_punctuation_flat_map.
Qed.

Lemma C8_text_without_letters_witness :
  convert (u "Hi, 42; قازاق - ok?!") = OK (u "Hi، 42؛ قازاق - ok؟!").
Proof.
  apply (C8_text_without_letters (u "Hi, 42; قازاق - ok?!")). reflexivity.
Defined.

(** ** Loanwords *)

Lemma has_loanword_consonant_lower (word : str) :
  has_loanword_consonant word = true ->
  has_loanword_consonant (lower word) = true.
Proof.
  unfold has_loanword_consonant. rewrite existsb_lower, !existsb_exists.
  intros (c & Hc & Hm). exists c. split; [assumption |].
  apply mem_In in Hm. unfold LOANWORD_CONSONANTS in Hm. simpl in Hm.
  repeat (destruct Hm as [<- | Hm]; [reflexivity |]). destruct Hm.
Qed.

Lemma is_loanword_key (word : str) :
  is_loanword word = true -> loanword_key (lower word) = true.
Proof.
  unfold is_loanword, loanword_key.
  destruct (mem_str (lower word) I_INITIAL_NATIVE_WORDS); [discriminate |].
  cbn [negb andb].
  destruct (has_loanword_consonant word) eqn:E.
  { now rewrite (has_loanword_consonant_lower word E). }
  destruct (has_loanword_suffix (lower word));
    [now rewrite orb_true_r |].
  destruct (has_vowel_hiatus (lower word));
    [now rewrite orb_true_r |].
  intros ->. now rewrite orb_true_r.
Qed.

Lemma split_no_sep (sep : char) (w : str) :
  mem sep w = false -> split sep w = [w].
Proof.
  induction w as [| c t IH]; [reflexivity |].
  unfold mem. cbn [existsb split]. intros H.
  apply orb_false_iff in H. destruct H as [Hc Ht].
  rewrite N.eqb_sym, Hc. fold (mem sep t) in Ht. now rewrite (IH Ht).
Qed.

Lemma join_no_marker (outs : list str) :
  Forall (fun out => ~ In HAMZA out) outs -> ~ In HAMZA (join [hyphen] outs).
Proof.
  induction 1 as [| out outs Ho _ IH]; [intros [] |].
  cbn [join]. destruct outs as [| out' outs']; [assumption |].
  intros H. apply in_app_or in H. destruct H as [H | H]; [now apply Ho |].
  destruct H as [H | H]; [discriminate H | now apply IH].
Qed.

Lemma mapM_Forall2 {A B} (f : A -> result B) (l : list A) :
  forall outs, mapM f l = OK outs -> Forall2 (fun a b => f a = OK b) l outs.
Proof.
  induction l as [| a t IH]; simpl; intros outs.
  - intros [= <-]. constructor.
  - destruct (f a) as [b | e] eqn:E; [| discriminate]. cbn [bind].
    destruct (mapM f t) as [bs | e]; [| discriminate]. cbn [bind].
    intros [= <-]. constructor; [assumption | now apply IH].
Qed.

(** No value of the proper-noun table holds the marker.  A key of the
    exception-word table whose value holds it is no loanword, and none of
    them has a hyphen. *)
Lemma proper_nouns_no_marker (k v : str) :
  get PROPER_NOUNS k = Some v -> ~ In HAMZA v.
Proof.
  intros H. apply get_In in H.
  assert (F : forallb (fun kv => negb (mem HAMZA (snd kv))) PROPER_NOUNS
              = true) by reflexivity.
  rewrite forallb_forall in F. apply F in H.
  now apply negb_true_iff, mem_false in H.
Qed.

Lemma common_words_marker_not_loanword (k v : str) :
  get COMMON_WORDS k = Some v -> loanword_key k = true -> ~ In HAMZA v.
Proof.
  intros H L. apply get_In in H.
  assert (F : forallb (fun kv => negb (loanword_key (fst kv))
                                 || negb (mem HAMZA (snd kv))) COMMON_WORDS
              = true) by reflexivity.
  rewrite forallb_forall in F. apply F in H. cbn [fst snd] in H.
  rewrite L in H. now apply negb_true_iff, mem_false in H.
Qed.

Lemma common_words_marker_parts (k v : str) :
  get COMMON_WORDS k = Some v ->
  forallb loanword_key (split hyphen k) = true ->
  ~ In HAMZA v.
Proof.
  intros H L. apply get_In in H.
  assert (F : forallb (fun kv =>
                         negb (forallb loanword_key (split hyphen (fst kv)))
                         || negb (mem HAMZA (snd kv))) COMMON_WORDS
              = true) by reflexivity.
  rewrite forallb_forall in F. apply F in H. cbn [fst snd] in H.
  rewrite L in H. now apply negb_true_iff, mem_false in H.
Qed.

Lemma loanword_parts_keys (w : str) :
  Forall (fun part => is_loanword part = true) (split hyphen w) ->
  forallb loanword_key (split hyphen (lower w)) = true.
Proof.
  rewrite split_lower, forallb_forall. intros F k Hk.
  apply in_map_iff in Hk. destruct Hk as (part & <- & Hp).
  rewrite Forall_forall in F. now apply is_loanword_key, F.
Qed.

(** What [convert_word] returns for a loanword holds no marker. *)
Lemma convert_word_loanword (word out : str) :
  is_loanword word = true -> convert_word word = OK out -> ~ In HAMZA out.
Proof.
  intros Hl. unfold convert_word, has_key, subscript.
  destruct word as [| c t]; [intros [= <-] [] |].
  destruct (get PROPER_NOUNS (lower (c :: t))) as [v |] eqn:Ep.
  { intros [= <-]. eapply proper_nouns_no_marker; eassumption. }
  destruct (get COMMON_WORDS (lower (c :: t))) as [v |] eqn:Ec.
  { intros [= <-]. eapply common_words_marker_not_loanword;
      [eassumption | now apply is_loanword_key]. }
  destruct (transcribe (is_loanword (c :: t)) None (c :: t)) as [raw | e];
    [| discriminate].
  cbn [bind]. intros [= <-]. unfold apply_hamza_rule. rewrite Hl.
  apply strip_hamza_no_marker.
Qed.

Lemma convert_parts_loanword (parts outs : list str) :
  Forall (fun part => is_loanword part = true) parts ->
  mapM convert_word parts = OK outs ->
  Forall (fun out => ~ In HAMZA out) outs.
Proof.
  intros F H. apply mapM_Forall2 in H.
  induction H as [| part out parts outs Hc _ IH]; [constructor |].
  inversion F as [| ? ? Hl F']; subst.
  constructor; [now apply (convert_word_loanword part) | now apply IH].
Qed.

(** C2, as the code has it.  For every run each of whose parts between
    hyphens (the run itself when it has no hyphen) is not in the set of
    i-initial native words and meets one of the four tests of
    [is_loanword], the output of [convert] holds no marker.  The four tests
    are those of the code: the part holds ф, в, ц or ч, in either case; its
    case-folded form ends with a listed suffix; its case-folded form, with
    иі and then іи replaced by a placeholder, has two adjacent letters of
    аәеоөұүіыиэ (у, ю, я and ё do not count there); its case-folded form has
    three letters in a row none of which is of аәеоөұүіыиэуюяё (the signs ь
    and ъ count there). *)
Theorem C2_loanword_has_no_marker (w : str) :
  is_run w = true ->
  Forall (fun part => is_i_initial_native part = false
                      /\ loanword_criteria part = true) (split hyphen w) ->
  exists out, convert w = OK out /\ ~ In HAMZA out.
Proof.
  intros Hrun F.
  assert (Fl : Forall (fun part => is_loanword part = true) (split hyphen w)).
  { eapply Forall_impl; [| exact F]. intros part [Hn Hc].
    rewrite is_loanword_criteria, Hn, Hc. reflexivity. }
  rewrite (convert_run w Hrun).
  unfold convert_compound_word, has_key, subscript.
  destruct w as [| c t]; [discriminate |].
  destruct (get PROPER_NOUNS (lower (c :: t))) as [v |] eqn:Ep.
  { exists v. split; [reflexivity |].
    eapply proper_nouns_no_marker; eassumption. }
  destruct (get COMMON_WORDS (lower (c :: t))) as [v |] eqn:Ec.
  { exists v. split; [reflexivity |].
    eapply common_words_marker_parts;
      [eassumption | now apply loanword_parts_keys]. }
  destruct (mem hyphen (c :: t)) eqn:Eh.
  - destruct (mapM_total convert_word (split hyphen (c :: t))
                convert_word_total) as (outs & Hm).
    rewrite Hm. cbn [bind]. eexists. split; [reflexivity |].
    apply join_no_marker. now apply (convert_parts_loanword _ _ Fl).
  - rewrite (split_no_sep _ _ Eh) in Fl. inversion Fl as [| ? ? Hl _]; subst.
    destruct (convert_word_total (c :: t)) as (out & Ho).
    exists out. split; [assumption |].
    now apply (convert_word_loanword (c :: t)).
Qed.

(** физика ends with the suffix ика; in өлфә-химия the first part holds ф
    and begins with ө, the second ends with the suffix ия. *)
Lemma C2_loanword_has_no_marker_witness :
  (exists out, convert (u "физика") = OK out /\ ~ In HAMZA out)
  /\ (exists out, convert (u "өлфә-химия") = OK out /\ ~ In HAMZA out).
Proof.
  split.
  - apply (C2_loanword_has_no_marker (u "физика")); [reflexivity |].
    vm_compute. repeat constructor.
  - apply (C2_loanword_has_no_marker (u "өлфә-химия")); [reflexivity |].
    vm_compute. repeat constructor.
Defined.

(** иық is a run that meets the hiatus criterion (иы), and the output of
    [convert] for it begins with the marker.  ф-өл is a run that holds the
    loanword consonant ф, and the part after its hyphen gets the marker.
    тәуір is a word without hyphen, not an i-initial native word, with two
    adjacent vowel letters (ә and у, у and і); у is not in the class the
    code looks for, the word meets none of the four tests and its output
    begins with the marker. *)
Lemma C2_counterexample :
  (is_run (u "иық") = true
   /\ has_vowel_hiatus (lower (u "иық")) = true
   /\ loanword_criteria (u "иық") = true
   /\ convert (u "иық") = OK (HAMZA :: u "ىيىق"))
  /\ (is_run (u "ф-өл") = true
      /\ has_loanword_consonant (u "ф-өл") = true
      /\ loanword_criteria (u "ф-өл") = true
      /\ convert (u "ф-өл") = OK (u "ف-" ++ HAMZA :: u "ول"))
  /\ (is_word (u "тәуір") = true
      /\ is_i_initial_native (u "тәуір") = false
      /\ has_adjacent_vowels (lower (u "тәуір")) = true
      /\ loanword_criteria (u "тәуір") = false
      /\ convert (u "тәуір") = OK (HAMZA :: u "تاۋىر")).
Proof.
  split; [| split]; repeat (split; [reflexivity |]); reflexivity.
Qed.

(** ** Strong back consonants *)

(** C3, as the code has it.  For every word without hyphen that holds қ or
    ғ (either case), is no dictionary entry, is not in the set of i-initial
    native words and does not begin with ө, ү or і (either case), the output
    of [convert] holds no marker. *)
Theorem C3_back_signal_has_no_marker (w : str) :
  is_word w = true ->
  (exists c, In c w /\ In c back_signal_any_case) ->
  get PROPER_NOUNS (lower w) = None ->
  get COMMON_WORDS (lower w) = None ->
  is_i_initial_native w = false ->
  starts_high_front (lower w) = false ->
  exists out, convert w = OK out /\ ~ In HAMZA out.
Proof.
  intros Hw Hb Hp Hc Hn Hs.
  rewrite (convert_word_run w Hw). unfold convert_word, has_key.
  destruct w as [| c t]; [discriminate |]. rewrite Hp, Hc.
  destruct (transcribe_total (is_loanword (c :: t)) (c :: t) None)
    as (raw & ->).
  cbn [bind]. eexists. split; [reflexivity |].
  assert (E : apply_hamza_rule raw (c :: t) = strip_hamza raw).
  { unfold apply_hamza_rule. rewrite Hn, Hs.
    destruct (is_loanword (c :: t)); [reflexivity |].
    destruct (existsb _ (c :: t)); [reflexivity |].
    destruct (mem ie (lower (c :: t)) || mem IE (c :: t)); [reflexivity |].
    unfold get_initial_harmony. now rewrite (has_back_signal _ Hb). }
  rewrite E. apply strip_hamza_no_marker.
Qed.

(** әдепқор holds front vowels and қ and begins with ә; Ғибрат begins
    with Ғ. *)
Lemma C3_back_signal_has_no_marker_witness :
  (exists out, convert (u "әдепқор") = OK out /\ ~ In HAMZA out)
  /\ (exists out, convert (u "Ғибрат") = OK out /\ ~ In HAMZA out).
Proof.
  split.
  - apply (C3_back_signal_has_no_marker (u "әдепқор")); try reflexivity.
    exists (ch "қ"). split; vm_compute; tauto.
  - apply (C3_back_signal_has_no_marker (u "Ғибрат")); try reflexivity.
    exists (ch "Ғ"). split; vm_compute; tauto.
Defined.

(** үнқағаз holds қ and ғ, is no dictionary entry, and begins with ү: the
    rule for the first letter comes before the harmony class, and the output
    begins with the marker. *)
Lemma C3_counterexample :
  is_word (u "үнқағаз") = true
  /\ In (ch "қ") (u "үнқағаз")
  /\ get PROPER_NOUNS (lower (u "үнқағаз")) = None
  /\ get COMMON_WORDS (lower (u "үнқағаз")) = None
  /\ get_initial_harmony (u "үнқағаз") = back
  /\ convert (u "үнқағаз") = OK (HAMZA :: u "ۇنقاعاز").
Proof.
  split; [reflexivity |]. split; [vm_compute; tauto |].
  split; [| split; [| split]]; reflexivity.
Qed.

(** иық holds қ as well and gets the marker as an i-initial native word. *)
Example back_signal_i_initial_native :
  In (ch "қ") (u "иық")
  /\ is_i_initial_native (u "иық") = true
  /\ convert (u "иық") = OK (HAMZA :: u "ىيىق").
Proof. split; [vm_compute; tauto | split; reflexivity]. Qed.

(** ** Compound words *)

Lemma convert_word_part_output (part : str) :
  exists out, convert_word part = OK out /\ part_output part out.
Proof.
  unfold convert_word, part_output, has_key, subscript, rule_output.
  destruct part as [| c t]; [exists []; split; reflexivity |].
  destruct (get PROPER_NOUNS (lower (c :: t))) as [v |];
    [now exists v |].
  destruct (get COMMON_WORDS (lower (c :: t))) as [v |];
    [now exists v |].
  destruct (transcribe_total (is_loanword (c :: t)) (c :: t) None)
    as (raw & ->).
  cbn [bind]. now eexists.
Qed.

Lemma mapM_convert_word (parts : list str) :
  exists outs,
    mapM convert_word parts = OK outs /\ Forall2 part_output parts outs.
Proof.
  induction parts as [| p t (outs & IH & F)]; simpl.
  - exists []. split; [reflexivity | constructor].
  - destruct (convert_word_part_output p) as (out & -> & Hp).
    rewrite IH. cbn [bind]. exists (out :: outs).
    split; [reflexivity | now constructor].
Qed.

(** C4, as the code has it.  For every run with a hyphen whose case-folded
    form is a key of neither table, the result is the parts between the
    hyphens, each converted by [convert_word], joined by hyphens again; and
    [convert_word] gives for a part the value stored for its case-folded
    form when a table has it, the proper-noun table first, and the marker
    rule applied to its transcription otherwise. *)
Theorem C4_compound_parts (w : str) :
  is_run w = true ->
  mem hyphen w = true ->
  get PROPER_NOUNS (lower w) = None ->
  get COMMON_WORDS (lower w) = None ->
  exists outs,
    Forall2 part_output (split hyphen w) outs
    /\ convert w = OK (join [hyphen] outs).
Proof.
  intros Hrun Hh Hp Hc. rewrite (convert_run w Hrun).
  unfold convert_compound_word, has_key.
  destruct w as [| c t]; [discriminate |]. rewrite Hp, Hc, Hh.
  destruct (mapM_convert_word (split hyphen (c :: t))) as (outs & -> & F).
  exists outs. split; [assumption | reflexivity].
Qed.

(** In пекин-алматы both parts are keys of the proper-noun table. *)
Lemma C4_compound_parts_witness :
  exists outs,
    Forall2 part_output (split hyphen (u "пекин-алматы")) outs
    /\ convert (u "пекин-алматы") = OK (join [hyphen] outs).
Proof.
  apply (C4_compound_parts (u "пекин-алматы")); reflexivity.
Defined.

(** пекин-алматы is a run with a hyphen and no key of a table.  Its part
    пекин is a key of the proper-noun table: [convert] gives the value
    stored for it, and not the rule output that step 5 alone would give. *)
Lemma C4_counterexample :
  is_run (u "пекин-алматы") = true
  /\ mem hyphen (u "пекин-алматы") = true
  /\ get PROPER_NOUNS (lower (u "пекин-алматы")) = None
  /\ get COMMON_WORDS (lower (u "пекин-алматы")) = None
  /\ convert (u "пекин-алматы") = OK (u "بەيجيڭ-الماتى")
  /\ (outs <- mapM rule_output (split hyphen (u "пекин-алматы")) ;;
      OK (join [hyphen] outs)) = OK (u "پەكىين-الماتى")
  /\ convert (u "пекин-алматы")
     <> (outs <- mapM rule_output (split hyphen (u "пекин-алматы")) ;;
         OK (join [hyphen] outs)).
Proof.
  do 6 (split; [reflexivity |]). discriminate.
Qed.

(** * Further properties of the converter *)

(** ** The alphabet of the pattern *)

Lemma is_letter_alphabet (c : char) : is_letter c = true -> In c alphabet.
Proof.
  intros H.
  assert (B : 0x400 <= c < 0x500).
  { pose proof (is_letter_cyrillic c H) as L. split; [lia |].
    unfold is_letter in H. apply orb_true_iff in H.
    destruct H as [H | H];
      [apply orb_true_iff in H; destruct H as [H | H];
         [apply orb_true_iff in H; destruct H as [H | H] |] |].
    - vm_compute (ch _) in H. to_prop. lia.
    - apply mem_In in H. vm_compute in H.
      repeat (destruct H as [<- | H]; [reflexivity |]). destruct H.
    - vm_compute (ch _) in H. to_prop. lia.
    - apply mem_In in H. vm_compute in H.
      repeat (destruct H as [<- | H]; [reflexivity |]). destruct H. }
  assert (I : In c (filter is_letter (map N.of_nat (seq 1024 256)))).
  { apply filter_In. split; [| assumption].
    apply in_map_iff. exists (N.to_nat c). split; [apply N2Nat.id |].
    apply in_seq. lia. }
  exact I.
Qed.

(** A property of code points that holds of every letter of the class as
    soon as it holds of the letters listed. *)
Lemma alphabet_forall (P : char -> bool) :
  forallb P alphabet = true -> forall c, is_letter c = true -> P c = true.
Proof.
  intros F c H. rewrite forallb_forall in F.
  now apply F, is_letter_alphabet.
Qed.

(** ** What the output is made of *)

Lemma get_char_In {V} (d : list (char * V)) (k : char) (v : V) :
  get_char d k = Some v -> In (k, v) d.
Proof.
  induction d as [| [k' v'] d IH]; simpl; [discriminate |].
  destruct (N.eqb_spec k k') as [-> | N].
  - intros [= ->]. now left.
  - intros H. right. auto.
Qed.

Lemma subscript_char_In {V} (d : list (char * V)) (k : char) (v : V) :
  subscript_char d k = OK v -> In (k, v) d.
Proof.
  unfold subscript_char. destruct (get_char d k) as [v' |] eqn:E;
    [| discriminate].
  intros [= <-]. now apply get_char_In.
Qed.

Lemma subscript_In {V} (d : list (str * V)) (k : str) (v : V) :
  subscript d k = OK v -> In (k, v) d.
Proof.
  unfold subscript. destruct (get d k) as [v' |] eqn:E; [| discriminate].
  intros [= <-]. now apply get_In.
Qed.

Lemma inert_not_letter (c : char) : inert c = true -> is_letter c = false.
Proof.
  unfold inert. intros H. apply andb_true_iff in H.
  now apply negb_true_iff.
Qed.

Lemma inert_punctuate (c : char) : inert c = true -> punctuate c = [c].
Proof.
  unfold inert. intros H. apply andb_true_iff in H.
  now apply eqb_str_eq.
Qed.

(** Every letter of the class meets one of the tests of the loop of
    [convert_word]: none is copied. *)
Lemma letter_is_transcribed (c : char) :
  is_letter c = true ->
  ((lower_char c =? soft_sign) || (lower_char c =? hard_sign))
  || ((lower_char c =? yu)
      || (((lower_char c =? tse) || (lower_char c =? shcha)
           || (lower_char c =? yo))
          || ((lower_char c =? ya)
              || ((lower_char c =? i_neutral)
                  || (has_key_char CONSONANTS c
                      || has_key_char VOWELS c))))) = true.
Proof.
  revert c. apply alphabet_forall. reflexivity.
Qed.

(** What one turn of the loop appends is inert, when the letter read is a
    letter of the class or inert itself. *)
Lemma transcribe_char_inert (is_loanword : bool) (prev : option char)
    (c : char) (unit : str) :
  is_letter c || inert c = true ->
  transcribe_char is_loanword prev c = OK unit ->
  forallb inert unit = true.
Proof.
  intros Hc. pose proof (letter_is_transcribed c) as L.
  unfold transcribe_char. revert L.
  destruct ((lower_char c =? soft_sign) || (lower_char c =? hard_sign));
    [now intros _ [= <-] |].
  destruct (lower_char c =? yu);
    [destruct is_loanword; now intros _ [= <-] |].
  destruct ((lower_char c =? tse) || (lower_char c =? shcha)
            || (lower_char c =? yo)) eqn:E.
  { intros _ H. apply subscript_char_In in H.
    assert (F : forallb (fun kv => forallb inert (snd kv)) COMBINATIONS
                = true) by reflexivity.
    rewrite forallb_forall in F. now apply F in H. }
  destruct (lower_char c =? ya).
  { destruct prev as [p |]; [destruct (lower_char p =? i_neutral) |];
      now intros _ [= <-]. }
  destruct (lower_char c =? i_neutral); [now intros _ [= <-] |].
  destruct (has_key_char CONSONANTS c).
  { intros _ H. apply subscript_char_In in H.
    assert (F : forallb (fun kv => forallb inert (snd kv)) CONSONANTS
                = true) by reflexivity.
    rewrite forallb_forall in F. now apply F in H. }
  destruct (has_key_char VOWELS c).
  { intros _ H. apply subscript_char_In in H.
    assert (F : forallb (fun kv => forallb inert (snd kv)) VOWELS
                = true) by reflexivity.
    rewrite forallb_forall in F. now apply F in H. }
  intros L [= <-]. cbn [forallb]. rewrite andb_true_r.
  destruct (is_letter c); [now specialize (L eq_refl) | exact Hc].
Qed.

Lemma transcribe_inert (is_loanword : bool) (word : str) :
  forallb (fun c => is_letter c || inert c) word = true ->
  forall prev raw,
    transcribe is_loanword prev word = OK raw -> forallb inert raw = true.
Proof.
  induction word as [| c t IH]; cbn [forallb transcribe]; intros F prev raw.
  - now intros [= <-].
  - apply andb_true_iff in F. destruct F as [Fc Ft].
    destruct (transcribe_char is_loanword prev c) as [unit | e] eqn:Ec;
      [| discriminate].
    cbn [bind].
    destruct (transcribe is_loanword (Some c) t) as [rest | e] eqn:Et;
      [| discriminate].
    cbn [bind]. intros [= <-]. rewrite forallb_app.
    rewrite (transcribe_char_inert _ _ _ _ Fc Ec). now apply (IH Ft (Some c)).
Qed.

Lemma strip_hamza_forallb (P : char -> bool) (r : str) :
  forallb P r = true -> forallb P (strip_hamza r) = true.
Proof.
  rewrite strip_hamza_filter, !forallb_forall. intros F c Hc.
  apply filter_In in Hc. now apply F.
Qed.

Lemma apply_hamza_rule_inert (r word : str) :
  forallb inert r = true -> forallb inert (apply_hamza_rule r word) = true.
Proof.
  intros F. destruct (apply_hamza_rule_branch word) as [H | H]; rewrite H.
  - now apply strip_hamza_forallb.
  - unfold prefix_hamza. destruct (negb (startswith r [HAMZA]));
      [cbn [forallb]; now rewrite F | assumption].
Qed.

Lemma convert_word_inert (word out : str) :
  forallb (fun c => is_letter c || inert c) word = true ->
  convert_word word = OK out -> forallb inert out = true.
Proof.
  intros F. unfold convert_word. destruct word as [| c t];
    [now intros [= <-] |].
  destruct (has_key PROPER_NOUNS _).
  { intros H. apply subscript_In in H.
    assert (G : forallb (fun kv => forallb inert (snd kv)) PROPER_NOUNS
                = true) by reflexivity.
    rewrite forallb_forall in G. now apply G in H. }
  destruct (has_key COMMON_WORDS _).
  { intros H. apply subscript_In in H.
    assert (G : forallb (fun kv => forallb inert (snd kv)) COMMON_WORDS
                = true) by reflexivity.
    rewrite forallb_forall in G. now apply G in H. }
  destruct (transcribe _ None (c :: t)) as [raw | e] eqn:E; [| discriminate].
  cbn [bind]. intros [= <-]. apply apply_hamza_rule_inert.
  eapply transcribe_inert; eassumption.
Qed.

Lemma split_forallb (P : char -> bool) (sep : char) (w : str) :
  forallb P w = true -> Forall (fun p => forallb P p = true) (split sep w).
Proof.
  induction w as [| c t IH]; cbn [forallb split]; intros F.
  - now repeat constructor.
  - apply andb_true_iff in F. destruct F as [Fc Ft]. specialize (IH Ft).
    destruct (c =? sep); [now constructor |].
    destruct (split sep t) as [| p ps]; [now repeat constructor; cbn; rewrite Fc |].
    inversion IH as [| ? ? Hp Hps]; subst.
    constructor; [cbn [forallb]; now rewrite Fc | assumption].
Qed.

Lemma join_forallb (P : char -> bool) (sep : str) (outs : list str) :
  forallb P sep = true ->
  Forall (fun out => forallb P out = true) outs ->
  forallb P (join sep outs) = true.
Proof.
  intros Fs. induction 1 as [| out outs Ho _ IH]; [reflexivity |].
  cbn [join]. destruct outs as [| out' outs']; [assumption |].
  now rewrite !forallb_app, Ho, Fs, IH.
Qed.

Lemma convert_compound_word_inert (word out : str) :
  forallb (fun c => is_letter c || inert c) word = true ->
  convert_compound_word word = OK out -> forallb inert out = true.
Proof.
  intros F. unfold convert_compound_word. destruct word as [| c t];
    [now intros [= <-] |].
  destruct (has_key PROPER_NOUNS _).
  { intros H. apply subscript_In in H.
    assert (G : forallb (fun kv => forallb inert (snd kv)) PROPER_NOUNS
                = true) by reflexivity.
    rewrite forallb_forall in G. now apply G in H. }
  destruct (has_key COMMON_WORDS _).
  { intros H. apply subscript_In in H.
    assert (G : forallb (fun kv => forallb inert (snd kv)) COMMON_WORDS
                = true) by reflexivity.
    rewrite forallb_forall in G. now apply G in H. }
  destruct (mem hyphen (c :: t)); [| now apply convert_word_inert].
  destruct (mapM convert_word (split hyphen (c :: t))) as [outs | e] eqn:E;
    [| discriminate].
  cbn [bind]. intros [= <-]. apply join_forallb; [reflexivity |].
  apply mapM_Forall2 in E. pose proof (split_forallb _ hyphen _ F) as Fp.
  induction E as [| p o ps os Hc _ IH]; [constructor |].
  inversion Fp as [| ? ? Hp Hps]; subst.
  constructor; [now apply (convert_word_inert p) | now apply IH].
Qed.

Lemma match_run_letters (s m r : str) :
  match_run s = Some (m, r) ->
  forallb (fun c => is_letter c || inert c) m = true.
Proof.
  intros H.
  assert (F : Forall (fun c => is_letter c = true \/ c = hyphen) m).
  { destruct s as [| c t]; [discriminate |]. simpl in H.
    destruct (is_letter c) eqn:L; [| discriminate].
    destruct (match_rest t) as [m' r'] eqn:E. injection H as <- <-.
    constructor; [now left | now apply (match_rest_letters t m' r')]. }
  apply forallb_forall. intros c Hc. rewrite Forall_forall in F.
  destruct (F c Hc) as [-> | ->]; reflexivity.
Qed.

(** What [re.sub] returns is inert when its text holds letters of the class
    and inert code points only, and the replacement function returns inert
    strings for what the pattern matches. *)
Lemma re_sub_inert (repl : str -> result str) :
  (forall m out,
      forallb (fun c => is_letter c || inert c) m = true ->
      repl m = OK out -> forallb inert out = true) ->
  forall text,
    forallb (fun c => is_letter c || inert c) text = true ->
    forall skip out, re_sub repl skip text = OK out ->
                     forallb inert out = true.
Proof.
  intros Hrepl. induction text as [| c t IH]; intros F skip out.
  - now intros [= <-].
  - cbn [forallb] in F. apply andb_true_iff in F. destruct F as [Fc Ft].
    cbn [re_sub]. destruct skip as [| k]; [| now apply IH].
    destruct (match_run (c :: t)) as [[m r] |] eqn:E.
    + destruct (repl m) as [o | e] eqn:Er; [| discriminate]. cbn [bind].
      destruct (re_sub repl _ t) as [rest | e] eqn:Es; [| discriminate].
      cbn [bind]. intros [= <-]. rewrite forallb_app.
      rewrite (Hrepl m o (match_run_letters _ _ _ E) Er).
      now apply (IH Ft _ _ Es).
    + destruct (re_sub repl O t) as [rest | e] eqn:Es; [| discriminate].
      cbn [bind]. intros [= <-]. cbn [forallb].
      rewrite (IH Ft _ _ Es), andb_true_r.
      cbn [match_run] in E. destruct (is_letter c);
        [destruct (match_rest t); discriminate | exact Fc].
Qed.

(** After the punctuation table is applied, every code point that is no
    letter of the class is its own image under the table. *)
Lemma punctuate_settled (c : char) :
  forallb (fun c' => is_letter c' || inert c') (punctuate c) = true.
Proof.
  destruct (is_letter c) eqn:L.
  { rewrite (punctuate_letter c L). cbn [forallb]. now rewrite L. }
  unfold punctuate, PUNCTUATION. cbn [get].
  rewrite !eqb_str_single.
  destruct (N.eqb_spec c 44) as [-> | N1]; [reflexivity |].
  destruct (N.eqb_spec c 46) as [-> | N2]; [reflexivity |].
  destruct (N.eqb_spec c 58) as [-> | N3]; [reflexivity |].
  destruct (N.eqb_spec c 59) as [-> | N4]; [reflexivity |].
  destruct (N.eqb_spec c 63) as [-> | N5]; [reflexivity |].
  destruct (N.eqb_spec c 33) as [-> | N6]; [reflexivity |].
  cbn [forallb]. unfold inert. rewrite L. cbn [negb orb andb].
  rewrite andb_true_r.
  apply eqb_str_eq. unfold punctuate, PUNCTUATION. cbn [get].
  rewrite !eqb_str_single.
  apply N.eqb_neq in N1, N2, N3, N4, N5, N6.
  now rewrite N1, N2, N3, N4, N5, N6.
Qed.

Lemma map_punctuation_settled (text : str) :
  forallb (fun c => is_letter c || inert c) (map_punctuation text) = true.
Proof.
  rewrite map_punctuation_flat_map.
  induction text as [| c t IH]; [reflexivity |].
  cbn [flat_map]. now rewrite forallb_app, punctuate_settled, IH.
Qed.

Lemma convert_inert (text out : str) :
  convert text = OK out -> forallb inert out = true.
Proof.
  unfold convert. apply re_sub_inert.
  - apply convert_compound_word_inert.
  - apply map_punctuation_settled.
Qed.

Lemma flat_map_punctuate_inert (out : str) :
  forallb inert out = true -> flat_map punctuate out = out.
Proof.
  induction out as [| c t IH]; [reflexivity |].
  cbn [forallb flat_map]. intros F. apply andb_true_iff in F.
  destruct F as [Fc Ft]. now rewrite (inert_punctuate c Fc), (IH Ft).
Qed.

(** X1.  Whatever the text, what [convert] returns holds no letter of the
    class of the pattern: every source letter of a run is replaced, and
    none is copied or stored in a table value. *)
Theorem convert_leaves_no_source_letter (text : str) :
  exists out,
    convert text = OK out
    /\ forallb (fun c => negb (is_letter c)) out = true.
Proof.
  destruct (re_sub_total convert_compound_word convert_compound_word_total
              (map_punctuation text) O) as (out & H).
  exists out. split; [exact H |].
  apply convert_inert in H. apply forallb_forall. intros c Hc.
  rewrite forallb_forall in H. now apply negb_true_iff, inert_not_letter, H.
Qed.

(** X2.  [convert] is idempotent: converting its own output again changes
    nothing. *)
Theorem convert_idempotent (text : str) :
  exists out, convert text = OK out /\ convert out = OK out.
Proof.
  destruct (re_sub_total convert_compound_word convert_compound_word_total
              (map_punctuation text) O) as (out & H).
  exists out. split; [exact H |].
  pose proof (convert_inert text out H) as I.
  unfold convert. rewrite map_punctuation_flat_map.
  rewrite (flat_map_punctuate_inert out I).
  apply re_sub_no_letter. apply forallb_forall. intros c Hc.
  rewrite forallb_forall in I. now apply negb_true_iff, inert_not_letter, I.
Qed.

(** ** Where [convert] splits its text *)

Lemma ends_with_letter_app (m r : str) :
  r <> [] -> ends_with_letter (m ++ r) = ends_with_letter r.
Proof.
  intros Hr. induction m as [| x m IH]; [reflexivity |].
  cbn [app ends_with_letter]. destruct (m ++ r) eqn:E; [| assumption].
  apply app_eq_nil in E. now destruct E.
Qed.

(** The first code point after a match is no letter. *)
Lemma match_rest_stops (s : str) :
  forall m r, match_rest s = (m, r) -> starts_with_letter r = false.
Proof.
  induction s as [| x t IH]; intros m r; cbn [match_rest].
  - now intros [= <- <-].
  - destruct (is_letter x) eqn:L.
    + destruct (match_rest t) as [m' r'] eqn:E. intros [= <- <-].
      now apply (IH m' r').
    + destruct (x =? hyphen);
        [| intros [= <- <-]; cbn; assumption].
      destruct t as [| d t']; [intros [= <- <-]; cbn; assumption |].
      destruct (is_letter d) eqn:Ld; [| intros [= <- <-]; cbn; assumption].
      destruct (match_rest (d :: t')) as [m' r'] eqn:E. intros [= <- <-].
      now apply (IH m' r').
Qed.

(** A match that takes the whole string ends with a letter. *)
Lemma match_rest_whole (s : str) :
  forall m, match_rest s = (m, []) -> s <> [] -> ends_with_letter s = true.
Proof.
  induction s as [| x t IH]; intros m; [congruence |].
  cbn [match_rest]. destruct (is_letter x) eqn:L.
  - destruct (match_rest t) as [m' r'] eqn:E. intros [= <- ->] _.
    destruct t as [| d t']; [exact L |].
    cbn [ends_with_letter]. now apply (IH m').
  - destruct (x =? hyphen); [| discriminate].
    destruct t as [| d t']; [discriminate |].
    destruct (is_letter d); [| discriminate].
    destruct (match_rest (d :: t')) as [m' r'] eqn:E. intros [= <- ->] _.
    cbn [ends_with_letter]. now apply (IH m').
Qed.

(** A match does not change when the text goes on after it with a code
    point that is no letter, if the match stops before the end of the text
    or that code point cannot go on it. *)
Lemma match_rest_boundary (c : char) (b : str) :
  is_letter c = false ->
  forall s m r,
    match_rest s = (m, r) ->
    r <> [] \/ (c =? hyphen) && starts_with_letter b = false ->
    match_rest (s ++ c :: b) = (m, r ++ c :: b).
Proof.
  intros Lc. induction s as [| x t IH]; intros m r.
  - cbn [match_rest app]. intros [= <- <-] [H | H]; [congruence |].
    rewrite Lc. destruct (c =? hyphen); [| reflexivity].
    destruct b as [| d b']; [reflexivity |].
    cbn in H. now rewrite H.
  - cbn [match_rest app]. destruct (is_letter x) eqn:L.
    + destruct (match_rest t) as [m' r'] eqn:E. intros [= <- <-] H.
      now rewrite (IH m' r' eq_refl H).
    + destruct (x =? hyphen); [| now intros [= <- <-]].
      destruct t as [| d t'].
      * intros [= <- <-] _. cbn [app]. now rewrite Lc.
      * cbn [app]. destruct (is_letter d); [| now intros [= <- <-]].
        destruct (match_rest (d :: t')) as [m' r'] eqn:E.
        intros [= <- <-] H. change (d :: t' ++ c :: b) with ((d :: t') ++ c :: b).
        now rewrite (IH m' r' eq_refl H).
Qed.

Lemma match_run_boundary (a : str) (c : char) (b m r : str) :
  is_boundary a c b = true ->
  match_run a = Some (m, r) ->
  match_run (a ++ c :: b) = Some (m, r ++ c :: b)
  /\ is_boundary r c b = true.
Proof.
  unfold is_boundary. intros B. apply andb_true_iff in B.
  destruct B as [Lc B]. apply negb_true_iff in Lc.
  destruct a as [| x t]; [discriminate |]. cbn [match_run app].
  destruct (is_letter x) eqn:L; [| discriminate].
  destruct (match_rest t) as [m' r'] eqn:E. intros [= <- <-].
  assert (H : r' <> [] \/ (c =? hyphen) && starts_with_letter b = false).
  { destruct r' as [| y r'']; [right | left; discriminate].
    destruct (c =? hyphen); [| reflexivity].
    destruct (starts_with_letter b); [| reflexivity].
    cbn [negb orb] in B. rewrite orb_false_r in B.
    apply negb_true_iff in B.
    destruct t as [| d t'];
      [cbn [ends_with_letter] in B; rewrite L in B; discriminate |].
    change (ends_with_letter (x :: d :: t'))
      with (ends_with_letter (d :: t')) in B.
    rewrite (match_rest_whole (d :: t') m' E) in B by discriminate.
    discriminate. }
  rewrite (match_rest_boundary c b Lc t m' r' E H). split; [reflexivity |].
  rewrite Lc. cbn [negb andb].
  destruct H as [H | H].
  - pose proof (match_rest_app t m' r' E) as A.
    assert (X : ends_with_letter (x :: t) = ends_with_letter r').
    { rewrite A. change (x :: m' ++ r') with ((x :: m') ++ r').
      now apply ends_with_letter_app. }
    now rewrite <- X.
  - destruct (c =? hyphen); [| reflexivity].
    cbn [andb] in H. rewrite H. now rewrite orb_true_r.
Qed.

Lemma is_boundary_tail (x : char) (a : str) (c : char) (b : str) :
  is_letter x = false ->
  is_boundary (x :: a) c b = true -> is_boundary a c b = true.
Proof.
  unfold is_boundary. intros L. destruct a as [| y a']; [| trivial].
  cbn [ends_with_letter]. rewrite L. intros H.
  apply andb_true_iff in H. destruct H as [-> _].
  cbn. now rewrite orb_true_r.
Qed.

(** [re.sub] works on the two sides of a boundary apart. *)
Lemma re_sub_boundary (repl : str -> result str) (c : char) (b : str) :
  forall n a,
    (List.length a <= n)%nat ->
    is_boundary a c b = true ->
    re_sub repl O (a ++ c :: b)
    = (x <- re_sub repl O a ;; y <- re_sub repl O b ;; OK (x ++ c :: y)).
Proof.
  induction n as [| n IH]; intros a Hn B.
  - destruct a; [| cbn in Hn; lia].
    cbn [app]. rewrite re_sub_no_match.
    + cbn. now destruct (re_sub repl O b).
    + unfold is_boundary in B. apply andb_true_iff in B.
      now apply negb_true_iff.
  - destruct a as [| x t].
    { cbn [app]. rewrite re_sub_no_match.
      - cbn. now destruct (re_sub repl O b).
      - unfold is_boundary in B. apply andb_true_iff in B.
        now apply negb_true_iff. }
    destruct (match_run (x :: t)) as [[m r] |] eqn:E.
    + destruct (match_run_boundary _ _ _ _ _ B E) as [E' Br].
      rewrite (re_sub_match repl _ _ _ E'), (re_sub_match repl _ _ _ E).
      pose proof (match_run_app _ _ _ E) as A.
      assert (Hr : (List.length r <= n)%nat).
      { apply (f_equal (@List.length _)) in A. rewrite length_app in A.
        cbn in Hn, A. destruct m; [| cbn in A; lia].
        cbn in E. destruct (is_letter x); [| discriminate].
        destruct (match_rest t); discriminate. }
      rewrite (IH r Hr Br).
      destruct (repl m) as [o | e]; [| reflexivity]. cbn [bind].
      destruct (re_sub repl O r) as [o1 | e]; [| reflexivity]. cbn [bind].
      destruct (re_sub repl O b) as [o2 | e]; [| reflexivity]. cbn [bind].
      now rewrite app_assoc.
    + assert (L : is_letter x = false).
      { cbn in E. destruct (is_letter x); [| reflexivity].
        destruct (match_rest t); discriminate. }
      cbn [app]. rewrite !(re_sub_no_match repl x _ L).
      rewrite (IH t); [| cbn in Hn; lia | now apply (is_boundary_tail x)].
      destruct (re_sub repl O t) as [o1 | e]; [| reflexivity]. cbn [bind].
      now destruct (re_sub repl O b).
Qed.

(** The punctuation table maps a code point to one code point, a letter of
    the class to itself and a hyphen to itself, and no other to either. *)
Lemma punctuate_single (c : char) :
  exists c',
    punctuate c = [c']
    /\ is_letter c' = is_letter c
    /\ (c' =? hyphen) = (c =? hyphen).
Proof.
  destruct (is_letter c) eqn:L.
  { exists c. now rewrite (punctuate_letter c L). }
  unfold punctuate, PUNCTUATION. cbn [get]. rewrite !eqb_str_single.
  destruct (N.eqb_spec c 44) as [-> | N1]; [now eexists |].
  destruct (N.eqb_spec c 46) as [-> | N2]; [now eexists |].
  destruct (N.eqb_spec c 58) as [-> | N3]; [now eexists |].
  destruct (N.eqb_spec c 59) as [-> | N4]; [now eexists |].
  destruct (N.eqb_spec c 63) as [-> | N5]; [now eexists |].
  destruct (N.eqb_spec c 33) as [-> | N6]; [now eexists |].
  now exists c.
Qed.

Lemma map_punctuation_starts (b : str) :
  starts_with_letter (map_punctuation b) = starts_with_letter b.
Proof.
  rewrite map_punctuation_flat_map. destruct b as [| d b']; [reflexivity |].
  cbn [flat_map]. destruct (punctuate_single d) as (d' & -> & L & _).
  exact L.
Qed.

Lemma map_punctuation_ends (a : str) :
  ends_with_letter (map_punctuation a) = ends_with_letter a.
Proof.
  rewrite map_punctuation_flat_map.
  induction a as [| x t IH]; [reflexivity |].
  cbn [flat_map]. destruct (punctuate_single x) as (x' & -> & L & _).
  destruct t as [| y t']; [exact L |].
  cbn [flat_map app] in *.
  destruct (punctuate_single y) as (y' & Ey & _). rewrite Ey in *.
  exact IH.
Qed.

(** X3.  [convert] works on the two sides of a boundary apart: when [c] is
    no letter of the class and, if it is a hyphen, does not stand between
    two letters, the conversion of [a ++ c :: b] is the conversion of [a],
    the image of [c] under the punctuation table, and the conversion of
    [b]. *)
Theorem convert_splits_at_boundary (a : str) (c : char) (b : str) :
  is_boundary a c b = true ->
  convert (a ++ c :: b)
  = (x <- convert a ;; y <- convert b ;; OK (x ++ punctuate c ++ y)).
Proof.
  intros B. unfold convert.
  change (c :: b) with ([c] ++ b).
  rewrite !map_punctuation_app, map_punctuation_single.
  destruct (punctuate_single c) as (c' & -> & L & H).
  cbn [app].
  apply (re_sub_boundary _ c' _ (List.length (map_punctuation a)));
    [apply le_n |].
  unfold is_boundary in *.
  now rewrite L, H, map_punctuation_ends, map_punctuation_starts.
Qed.

(** A space, a comma, the hyphens of a dash between spaces and a hyphen at
    the end of a word are boundaries. *)
Lemma convert_splits_at_boundary_witness :
  convert (u "сәлем" ++ ch "," :: u " әлем") = OK (u "سالەم، الەم")
  /\ convert (u "сөз " ++ ch "-" :: u " іс")
     = OK (HAMZA :: u "سوز - " ++ HAMZA :: u "ىس")
  /\ convert (u "қала" ++ ch "-" :: []) = OK (u "قالا-").
Proof.
  split; [| split].
  - rewrite (convert_splits_at_boundary (u "сәлем") (ch ",") (u " әлем"));
      reflexivity.
  - rewrite (convert_splits_at_boundary (u "сөз ") (ch "-") (u " іс"));
      reflexivity.
  - rewrite (convert_splits_at_boundary (u "қала") (ch "-") []);
      reflexivity.
Defined.

(** ** The marker in the output of a word *)

Lemma mem_str_In_list (w : str) (l : list str) :
  mem_str w l = true -> In w l.
Proof.
  unfold mem_str. rewrite existsb_exists.
  intros (x & Hx & E). apply eqb_str_eq in E. now subst.
Qed.

(** A turn of the loop appends one of [units], or copies a code point that
    is no letter of the class. *)
Lemma transcribe_char_unit (is_loanword : bool) (prev : option char)
    (c : char) (unit : str) :
  transcribe_char is_loanword prev c = OK unit ->
  In unit units \/ (unit = [c] /\ is_letter c = false).
Proof.
  pose proof (letter_is_transcribed c) as L.
  assert (T : forall (d : list (char * str)) k,
             forallb (fun kv => mem_str (snd kv) units) d = true ->
             subscript_char d k = OK unit -> In unit units).
  { intros d k F H. apply subscript_char_In in H.
    rewrite forallb_forall in F. apply F in H.
    apply existsb_exists in H. destruct H as (x & Hx & E).
    apply eqb_str_eq in E. cbn [snd] in E. now subst. }
  unfold transcribe_char. revert L.
  destruct ((lower_char c =? soft_sign) || (lower_char c =? hard_sign));
    [intros _ [= <-]; left; vm_compute; tauto |].
  destruct (lower_char c =? yu);
    [destruct is_loanword; intros _ [= <-]; left; vm_compute; tauto |].
  destruct ((lower_char c =? tse) || (lower_char c =? shcha)
            || (lower_char c =? yo)).
  { intros _ H. left. now apply (T COMBINATIONS (lower_char c)). }
  destruct (lower_char c =? ya).
  { destruct prev as [p |]; [destruct (lower_char p =? i_neutral) |];
      intros _ [= <-]; left; vm_compute; tauto. }
  destruct (lower_char c =? i_neutral);
    [intros _ [= <-]; left; vm_compute; tauto |].
  destruct (has_key_char CONSONANTS c).
  { intros _ H. left. now apply (T CONSONANTS c). }
  destruct (has_key_char VOWELS c).
  { intros _ H. left. now apply (T VOWELS c). }
  intros L [= <-]. right. split; [reflexivity |].
  destruct (is_letter c); [now specialize (L eq_refl) | reflexivity].
Qed.

(** The transcription of letters of the class holds no marker. *)
Lemma transcribe_no_marker (is_loanword : bool) (word : str) :
  forallb is_letter word = true ->
  forall prev raw,
    transcribe is_loanword prev word = OK raw -> ~ In HAMZA raw.
Proof.
  induction word as [| c t IH]; cbn [forallb transcribe]; intros F prev raw.
  - intros [= <-] [].
  - apply andb_true_iff in F. destruct F as [Fc Ft].
    destruct (transcribe_char is_loanword prev c) as [unit | e] eqn:Ec;
      [| discriminate].
    cbn [bind].
    destruct (transcribe is_loanword (Some c) t) as [rest | e] eqn:Et;
      [| discriminate].
    cbn [bind]. intros [= <-] H. apply in_app_or in H.
    destruct H as [H | H]; [| now apply (IH Ft (Some c) rest)].
    apply transcribe_char_unit in Ec. destruct Ec as [Hu | [_ Hl]];
      [| congruence].
    assert (G : forallb (fun un => negb (mem HAMZA un)) units = true)
      by reflexivity.
    rewrite forallb_forall in G. apply G in Hu.
    apply negb_true_iff, mem_false in Hu. contradiction.
Qed.

Lemma is_word_letters (w : str) :
  is_word w = true -> forallb is_letter w = true.
Proof. unfold is_word. now destruct w. Qed.

(** X4.  In the output of [convert] for a word without hyphen the marker
    occurs at most once, and only as the first code point. *)
Theorem marker_only_at_head (w : str) :
  is_word w = true ->
  exists out, convert w = OK out /\ ~ In HAMZA (tl out).
Proof.
  intros Hw. rewrite (convert_word_run w Hw).
  pose proof (is_word_letters w Hw) as F.
  unfold convert_word. destruct w as [| c t]; [discriminate |].
  destruct (has_key PROPER_NOUNS _) eqn:Ep.
  { destruct (subscript_has_key _ _ Ep) as (v & -> & G). exists v.
    split; [reflexivity |]. apply get_In in G.
    assert (A : forallb (fun kv => negb (mem HAMZA (tl (snd kv))))
                  PROPER_NOUNS = true) by reflexivity.
    rewrite forallb_forall in A. apply A in G.
    now apply negb_true_iff, mem_false in G. }
  destruct (has_key COMMON_WORDS _) eqn:Ec.
  { destruct (subscript_has_key _ _ Ec) as (v & -> & G). exists v.
    split; [reflexivity |]. apply get_In in G.
    assert (A : forallb (fun kv => negb (mem HAMZA (tl (snd kv))))
                  COMMON_WORDS = true) by reflexivity.
    rewrite forallb_forall in A. apply A in G.
    now apply negb_true_iff, mem_false in G. }
  destruct (transcribe_total (is_loanword (c :: t)) (c :: t) None)
    as (raw & E).
  rewrite E. cbn [bind]. eexists. split; [reflexivity |].
  pose proof (transcribe_no_marker _ _ F None raw E) as N.
  destruct (apply_hamza_rule_branch (c :: t)) as [H | H]; rewrite H.
  - intros I. apply (strip_hamza_no_marker raw).
    destruct (strip_hamza raw); [destruct I | now right].
  - unfold prefix_hamza. destruct (negb (startswith raw [HAMZA]));
      [exact N |].
    intros I. apply N. destruct raw; [destruct I | now right].
Qed.

Lemma marker_only_at_head_witness :
  (exists out, convert (u "өнер") = OK out /\ ~ In HAMZA (tl out))
  /\ convert (u "өнер") = OK (HAMZA :: u "ونەر").
Proof.
  split; [| reflexivity].
  apply (marker_only_at_head (u "өнер")). reflexivity.
Defined.

(** X5.  A word without hyphen that holds к or г, in either case, never
    gets the marker, dictionary entry or not: no i-initial native word and
    no dictionary key with a marker in its value holds one of them. *)
Theorem front_signal_word_has_no_marker (w : str) :
  is_word w = true ->
  (exists c, In c w /\ In c k_or_g) ->
  exists out, convert w = OK out /\ ~ In HAMZA out.
Proof.
  intros Hw Hk. rewrite (convert_word_run w Hw).
  pose proof (has_front_signal w Hk) as S.
  unfold convert_word, has_key, subscript.
  destruct w as [| c t]; [discriminate |].
  destruct (get PROPER_NOUNS (lower (c :: t))) as [v |] eqn:Ep.
  { exists v. split; [reflexivity |].
    eapply proper_nouns_no_marker; eassumption. }
  destruct (get COMMON_WORDS (lower (c :: t))) as [v |] eqn:Ec.
  { exists v. split; [reflexivity |]. apply get_In in Ec.
    assert (A : forallb (fun kv =>
                           negb (existsb (fun c => mem c front_signal)
                                   (fst kv))
                           || negb (mem HAMZA (snd kv))) COMMON_WORDS
                = true) by reflexivity.
    rewrite forallb_forall in A. apply A in Ec. cbn [fst snd] in Ec.
    rewrite S in Ec. now apply negb_true_iff, mem_false in Ec. }
  destruct (transcribe_total (is_loanword (c :: t)) (c :: t) None)
    as (raw & ->).
  cbn [bind]. eexists. split; [reflexivity |].
  assert (E : apply_hamza_rule raw (c :: t) = strip_hamza raw).
  { unfold apply_hamza_rule.
    destruct (is_loanword (c :: t)); [reflexivity |].
    destruct (is_i_initial_native (c :: t)) eqn:En.
    { unfold is_i_initial_native in En. apply mem_str_In_list in En.
      assert (A : forallb (fun k => negb (existsb (fun c => mem c front_signal)
                                            k)) I_INITIAL_NATIVE_WORDS
                  = true) by reflexivity.
      rewrite forallb_forall in A. apply A in En. now rewrite S in En. }
    destruct Hk as (x & Hx & Hxk).
    assert (K : existsb (fun char => mem char k_or_g) (c :: t) = true).
    { apply existsb_exists. exists x. split; [assumption |].
      now apply mem_In. }
    now rewrite K. }
  rewrite E. apply strip_hamza_no_marker.
Qed.

(** көл and гүл hold front vowels only; үкі begins with ү. *)
Lemma front_signal_word_has_no_marker_witness :
  (exists out, convert (u "көл") = OK out /\ ~ In HAMZA out)
  /\ (exists out, convert (u "Үкі") = OK out /\ ~ In HAMZA out).
Proof.
  split.
  - apply (front_signal_word_has_no_marker (u "көл")); [reflexivity |].
    exists (ch "к"). split; vm_compute; tauto.
  - apply (front_signal_word_has_no_marker (u "Үкі")); [reflexivity |].
    exists (ch "к"). split; vm_compute; tauto.
Defined.

(** ** The prefix rule of the classifier *)

Lemma startswith_In (s p : str) :
  startswith s p = true -> forall c, In c p -> In c s.
Proof.
  revert s. induction p as [| a p IH]; intros s H c Hc; [destruct Hc |].
  destruct s as [| b s]; [discriminate |]. cbn [startswith] in H.
  apply andb_true_iff in H. destruct H as [E H]. apply N.eqb_eq in E.
  destruct Hc as [<- | Hc]; [now left | right; now apply (IH s)].
Qed.

Lemma startswith_skipn (s p : str) :
  startswith s p = true -> s = p ++ skipn (List.length p) s.
Proof.
  revert s. induction p as [| a p IH]; intros s; [reflexivity |].
  destruct s as [| b s]; [discriminate |]. cbn [startswith].
  intros H. apply andb_true_iff in H. destruct H as [E H].
  apply N.eqb_eq in E. subst b. cbn [List.length skipn app].
  f_equal. now apply IH.
Qed.

(** X6.  Three of the five prefixes of [SOFT_PREFIXES_WITH_HARD_ROOT] never
    decide anything: a word that begins with екі, сегіз or тоғыз holds к, г
    or ғ, and is classified by the rules of the signal consonants, back when
    it holds қ or ғ and front otherwise, whatever the vowels of its root. *)
Theorem signal_prefix_is_never_consulted (word prefix : str) :
  In prefix signal_prefixes ->
  startswith (lower word) prefix = true ->
  get_initial_harmony word
  = if existsb (fun c => mem c back_signal) (lower word) then back else front.
Proof.
  intros Hp Hs. unfold get_initial_harmony.
  destruct (existsb (fun c => mem c back_signal) (lower word)) eqn:Eb;
    [reflexivity |].
  assert (S : existsb (fun c => mem c front_signal) (lower word) = true);
    [| now rewrite S].
  pose proof (startswith_In _ _ Hs) as I.
  unfold signal_prefixes in Hp. cbn [In] in Hp.
  destruct Hp as [<- | [<- | [<- | []]]].
  - apply existsb_exists. exists (ch "к"). split; [| reflexivity].
    apply I. vm_compute. tauto.
  - apply existsb_exists. exists (ch "г"). split; [| reflexivity].
    apply I. vm_compute. tauto.
  - assert (B : existsb (fun c => mem c back_signal) (lower word) = true);
      [| congruence].
    apply existsb_exists. exists (ch "ғ"). split; [| reflexivity].
    apply I. vm_compute. tauto.
Qed.

(** екіжылдық has a back root and holds қ; сегізжылды has a back root and
    holds г only: it is front all the same. *)
Lemma signal_prefix_is_never_consulted_witness :
  get_initial_harmony (u "Екіжылдық") = back
  /\ get_initial_harmony (u "сегізжылды") = front.
Proof.
  split.
  - rewrite (signal_prefix_is_never_consulted (u "Екіжылдық") (u "екі"));
      [reflexivity | vm_compute; tauto | reflexivity].
  - rewrite (signal_prefix_is_never_consulted (u "сегізжылды") (u "сегіз"));
      [reflexivity | vm_compute; tauto | reflexivity].
Defined.

(** X7.  A word without signal consonant that begins with бес or жеті takes
    the harmony of the first front or back vowel of what follows the prefix,
    not that of the prefix. *)
Theorem plain_prefix_takes_root_harmony (word prefix root : str)
    (h : harmony) :
  In prefix plain_prefixes ->
  lower word = prefix ++ root ->
  existsb (fun c => mem c back_signal) (lower word) = false ->
  existsb (fun c => mem c front_signal) (lower word) = false ->
  first_vowel root = Some h ->
  get_initial_harmony word = h.
Proof.
  intros Hp Hw Hb Hf Hv. unfold get_initial_harmony. rewrite Hb, Hf.
  assert (R : root <> []) by (intros ->; discriminate).
  assert (N : mem_str (lower word) I_INITIAL_NATIVE_WORDS = false).
  { destruct (mem_str (lower word) I_INITIAL_NATIVE_WORDS) eqn:E;
      [| reflexivity].
    apply mem_str_In_list in E. rewrite Hw in E.
    unfold plain_prefixes in Hp. cbn [In] in Hp.
    unfold I_INITIAL_NATIVE_WORDS in E. cbn [In] in E.
    destruct Hp as [<- | [<- | []]];
      repeat (destruct E as [E | E]; [discriminate E |]); destruct E. }
  rewrite N, Hw.
  unfold plain_prefixes in Hp. cbn [In] in Hp.
  destruct root as [| r0 root']; [congruence |].
  destruct Hp as [<- | [<- | []]];
    unfold SOFT_PREFIXES_WITH_HARD_ROOT; cbn; cbn in Hv; now rewrite Hv.
Qed.

(** бесбала: the prefix has the front vowel е, the root the back vowel а. *)
Lemma plain_prefix_takes_root_harmony_witness :
  get_initial_harmony (u "Бесбала") = back
  /\ get_initial_harmony (u "жетісу") = back.
Proof.
  split.
  - apply (plain_prefix_takes_root_harmony
             (u "Бесбала") (u "бес") (u "бала")); try reflexivity.
    vm_compute. tauto.
  - apply (plain_prefix_takes_root_harmony
             (u "жетісу") (u "жеті") (u "су")); try reflexivity.
    vm_compute. tauto.
Defined.

(** ** The tests the converter does not call *)

Lemma first_vowel_front (s : str) :
  first_vowel s = Some front ->
  existsb (fun char => mem char FRONT_VOWELS) s = true.
Proof.
  induction s as [| c t IH]; cbn [first_vowel existsb]; [discriminate |].
  destruct (mem c FRONT_VOWELS); [reflexivity |].
  destruct (mem c BACK_VOWELS); [discriminate | exact IH].
Qed.

Lemma existsb_skipn {A} (f : A -> bool) (n : nat) (l : list A) :
  existsb f (skipn n l) = true -> existsb f l = true.
Proof.
  revert l. induction n as [| n IH]; intros l; [trivial |].
  destruct l as [| a l]; [trivial |]. cbn [skipn existsb]. intros H.
  rewrite (IH l H). apply orb_true_r.
Qed.

Lemma prefix_root_harmony_front (prefixes : list str) (word_lower : str) :
  prefix_root_harmony prefixes word_lower = Some front ->
  existsb (fun char => mem char FRONT_VOWELS) word_lower = true.
Proof.
  induction prefixes as [| p ps IH]; cbn [prefix_root_harmony];
    [discriminate |].
  destruct (startswith word_lower p && _); [| exact IH].
  destruct (first_vowel (skipn (List.length p) word_lower)) as [h |] eqn:E;
    [| exact IH].
  intros [= ->]. apply (existsb_skipn _ (List.length p)).
  now apply first_vowel_front.
Qed.

(** X8.  A word is classified front for one of three reasons only: it holds
    к or г, it is an i-initial native word, or it holds a front vowel
    ([is_front_vowel_word]).  A word with none of the three is back. *)
Theorem front_harmony_has_a_reason (word : str) :
  get_initial_harmony word = front ->
  existsb (fun c => mem c front_signal) (lower word) = true
  \/ is_i_initial_native word = true
  \/ is_front_vowel_word word = true.
Proof.
  unfold get_initial_harmony, is_i_initial_native, is_front_vowel_word.
  destruct (existsb (fun c => mem c back_signal) (lower word));
    [discriminate |].
  destruct (existsb (fun c => mem c front_signal) (lower word));
    [now left |].
  destruct (mem_str (lower word) I_INITIAL_NATIVE_WORDS); [now right; left |].
  intros H. right. right.
  destruct (prefix_root_harmony SOFT_PREFIXES_WITH_HARD_ROOT (lower word))
    as [h |] eqn:E.
  - subst h. now apply (prefix_root_harmony_front _ _ E).
  - destruct (first_vowel (lower word)) as [h |] eqn:V; [| discriminate].
    subst h. now apply first_vowel_front.
Qed.

Lemma front_harmony_has_a_reason_witness :
  existsb (fun c => mem c front_signal) (lower (u "сәлем")) = true
  \/ is_i_initial_native (u "сәлем") = true
  \/ is_front_vowel_word (u "сәлем") = true.
Proof.
  apply (front_harmony_has_a_reason (u "сәлем")). reflexivity.
Defined.

(** ** The priority order of the classifier *)

(** Only к, К, г and Г fold to a letter of ['кг']. *)
Lemma lower_char_front_signal (c : char) :
  mem (lower_char c) front_signal = true -> mem c k_or_g = true.
Proof.
  rewrite !mem_In. unfold front_signal, k_or_g, lower_char.
  simpl.
  destruct ((0x41 <=? c) && (c <=? 0x5A)) eqn:E1;
  destruct ((0x400 <=? c) && (c <=? 0x40F)) eqn:E2;
  destruct ((0x410 <=? c) && (c <=? 0x42F)) eqn:E3;
  destruct (c =? 0x4C0) eqn:E4;
  destruct ((0x4C1 <=? c) && (c <=? 0x4CE)) eqn:E5;
  destruct ((0x48A <=? c) && (c <=? 0x4BF)) eqn:E6;
  try destruct (N.odd c); try destruct (N.even c);
  rewrite ?orb_true_r, ?orb_true_l, ?orb_false_r, ?orb_false_l;
  try destruct (((0x460 <=? c) && (c <=? 0x481))
                || ((0x4D0 <=? c) && (c <=? 0x52F))) eqn:E7;
  try (to_prop; lia);
  apply orb_true_iff in E7; destruct E7; to_prop; lia.
Qed.

Lemma existsb_pointwise {A} (f g : A -> bool) (l : list A) :
  (forall a, f a = g a) -> existsb f l = existsb g l.
Proof.
  intros H. induction l as [| a t IH]; [reflexivity |].
  cbn [existsb]. now rewrite H, IH.
Qed.

(** The two signal tests, made on the case-folded word, are tests of the
    word for the letters of either case. *)
Lemma holds_back_signal (word : str) :
  existsb (fun c => mem c back_signal) (lower word)
  = holds back_signal_any_case word.
Proof.
  rewrite existsb_lower. apply existsb_pointwise. intros c.
  destruct (mem c back_signal_any_case) eqn:E.
  - apply back_signal_lower. now apply mem_In.
  - destruct (mem (lower_char c) back_signal) eqn:F; [| reflexivity].
    apply lower_char_back_signal in F. congruence.
Qed.

Lemma holds_front_signal (word : str) :
  existsb (fun c => mem c front_signal) (lower word) = holds k_or_g word.
Proof.
  rewrite existsb_lower. apply existsb_pointwise. intros c.
  destruct (mem c k_or_g) eqn:E.
  - apply front_signal_lower. now apply mem_In.
  - destruct (mem (lower_char c) front_signal) eqn:F; [| reflexivity].
    apply lower_char_front_signal in F. congruence.
Qed.

Lemma first_vowel_none (s : str) :
  first_vowel s = None <-> vowel_free s = true.
Proof.
  unfold vowel_free.
  induction s as [| c t IH]; [now split |]. cbn [first_vowel forallb].
  destruct (mem c FRONT_VOWELS); [split; discriminate |].
  destruct (mem c BACK_VOWELS); [split; discriminate |]. exact IH.
Qed.

(** No letter is both a front and a back vowel, so that the order of the
    two tests of the scans does not matter. *)
Lemma back_vowel_not_front (v : char) :
  mem v BACK_VOWELS = true -> mem v FRONT_VOWELS = false.
Proof.
  intros H. apply mem_In in H.
  assert (G : forallb (fun v => negb (mem v FRONT_VOWELS)) BACK_VOWELS = true)
    by reflexivity.
  rewrite forallb_forall in G. apply G in H. now apply negb_true_iff in H.
Qed.

Lemma first_vowel_some (s : str) (h : harmony) :
  first_vowel s = Some h <-> first_vowel_is s h.
Proof.
  split.
  - induction s as [| c t IH]; cbn [first_vowel]; [discriminate |].
    destruct (mem c FRONT_VOWELS) eqn:F.
    { intros [= <-]. exists [], c, t.
      split; [reflexivity | split; [reflexivity | exact F]]. }
    destruct (mem c BACK_VOWELS) eqn:B.
    { intros [= <-]. exists [], c, t.
      split; [reflexivity | split; [reflexivity | exact B]]. }
    intros H. destruct (IH H) as (pre & v & post & -> & Hp & Hv).
    exists (c :: pre), v, post.
    split; [reflexivity | split; [| exact Hv]].
    unfold vowel_free in *. cbn [forallb]. now rewrite F, B.
  - intros (pre & v & post & -> & Hp & Hv).
    induction pre as [| c pre IH]; cbn [app first_vowel].
    + destruct h; cbn [vowels_of] in Hv.
      * now rewrite (back_vowel_not_front v Hv), Hv.
      * now rewrite Hv.
    + unfold vowel_free in Hp. cbn [forallb] in Hp.
      apply andb_true_iff in Hp. destruct Hp as [Hc Hp].
      apply andb_true_iff in Hc. destruct Hc as [F B].
      apply negb_true_iff in F, B. rewrite F, B. now apply IH.
Qed.

Lemma vowel_free_skipn (n : nat) (s : str) :
  vowel_free s = true -> vowel_free (skipn n s) = true.
Proof.
  unfold vowel_free. revert s.
  induction n as [| n IH]; intros s; [trivial |].
  destruct s as [| c t]; [trivial |]. cbn [skipn forallb]. intros H.
  apply andb_true_iff in H. now apply IH.
Qed.

Lemma startswith_app (p r : str) : startswith (p ++ r) p = true.
Proof.
  induction p as [| a p IH]; [reflexivity |].
  cbn [app startswith]. now rewrite N.eqb_refl.
Qed.

Lemma skipn_length_app (p r : str) : skipn (List.length p) (p ++ r) = r.
Proof. induction p as [| a p IH]; [reflexivity | exact IH]. Qed.

(** Of two strings that a third begins with, one begins with the other. *)
Lemma startswith_two (s p q : str) :
  startswith s p = true -> startswith s q = true ->
  startswith p q = true \/ startswith q p = true.
Proof.
  revert s q. induction p as [| a p IH]; intros s q Hp Hq; [now right |].
  destruct q as [| b q]; [now left |].
  destruct s as [| c s]; [discriminate |]. cbn [startswith] in *.
  apply andb_true_iff in Hp. destruct Hp as [Ea Hp].
  apply andb_true_iff in Hq. destruct Hq as [Eb Hq].
  apply N.eqb_eq in Ea, Eb. subst a b. rewrite N.eqb_refl. cbn [andb].
  exact (IH s q Hp Hq).
Qed.

(** No listed prefix begins with another: a word begins with one of them at
    most, and the order of the loop over them does not matter. *)
Lemma soft_prefix_unique (word_lower p q : str) :
  In p SOFT_PREFIXES_WITH_HARD_ROOT -> In q SOFT_PREFIXES_WITH_HARD_ROOT ->
  startswith word_lower p = true -> startswith word_lower q = true ->
  p = q.
Proof.
  intros Ip Iq Hp Hq.
  assert (G : forallb (fun p => forallb (fun q =>
                negb (startswith p q) || eqb_str p q)
                SOFT_PREFIXES_WITH_HARD_ROOT)
              SOFT_PREFIXES_WITH_HARD_ROOT = true) by reflexivity.
  rewrite forallb_forall in G.
  pose proof (G p Ip) as Gp. rewrite forallb_forall in Gp.
  pose proof (G q Iq) as Gq. rewrite forallb_forall in Gq.
  specialize (Gp q Iq). specialize (Gq p Ip).
  destruct (startswith_two _ _ _ Hp Hq) as [S | S]; rewrite S in *;
    cbn [negb orb] in *.
  - now apply eqb_str_eq in Gp.
  - apply eqb_str_eq in Gq. now symmetry.
Qed.

Lemma prefix_root_harmony_some (prefixes : list str) (word_lower : str)
    (h : harmony) :
  prefix_root_harmony prefixes word_lower = Some h ->
  exists prefix,
    In prefix prefixes /\ startswith word_lower prefix = true
    /\ first_vowel (skipn (List.length prefix) word_lower) = Some h.
Proof.
  induction prefixes as [| p ps IH]; cbn [prefix_root_harmony];
    [discriminate |].
  destruct (startswith word_lower p) eqn:S; cbn [andb].
  - destruct (Nat.ltb _ _).
    + destruct (first_vowel (skipn (List.length p) word_lower)) as [h' |]
        eqn:V.
      * intros [= ->]. exists p. split; [now left | now split].
      * intros H. destruct (IH H) as (q & Hq & R). exists q.
        split; [now right | exact R].
    + intros H. destruct (IH H) as (q & Hq & R). exists q.
      split; [now right | exact R].
  - intros H. destruct (IH H) as (q & Hq & R). exists q.
    split; [now right | exact R].
Qed.

Lemma prefix_root_harmony_none (prefixes : list str) (word_lower : str) :
  prefix_root_harmony prefixes word_lower = None ->
  forall prefix,
    In prefix prefixes -> startswith word_lower prefix = true ->
    first_vowel (skipn (List.length prefix) word_lower) = None.
Proof.
  induction prefixes as [| p ps IH]; cbn [prefix_root_harmony];
    intros H prefix Hp S; [destruct Hp |].
  destruct (startswith word_lower p && Nat.ltb _ _) eqn:T.
  - destruct (first_vowel (skipn (List.length p) word_lower)) as [h' |]
      eqn:V; [discriminate |].
    destruct Hp as [<- | Hp]; [exact V | now apply IH].
  - destruct Hp as [<- | Hp]; [| now apply IH].
    rewrite S in T. cbn [andb] in T. apply PeanoNat.Nat.ltb_ge in T.
    rewrite skipn_all2 by exact T. reflexivity.
Qed.

(** The prefix loop, by what it returns. *)
Lemma prefix_root_harmony_rule (word_lower prefix root : str) (h : harmony) :
  In prefix SOFT_PREFIXES_WITH_HARD_ROOT ->
  word_lower = prefix ++ root ->
  first_vowel root = Some h ->
  prefix_root_harmony SOFT_PREFIXES_WITH_HARD_ROOT word_lower = Some h.
Proof.
  intros Hp -> V.
  destruct (prefix_root_harmony SOFT_PREFIXES_WITH_HARD_ROOT
              (prefix ++ root)) as [h' |] eqn:E.
  - apply prefix_root_harmony_some in E. destruct E as (q & Hq & S & V').
    rewrite (soft_prefix_unique _ q prefix Hq Hp S (startswith_app _ _))
      in V'.
    rewrite skipn_length_app in V'. congruence.
  - pose proof (prefix_root_harmony_none _ _ E prefix Hp
                  (startswith_app _ _)) as V'.
    rewrite skipn_length_app in V'. congruence.
Qed.

Lemma prefix_root_harmony_no_rule (word_lower : str) :
  prefix_root_harmony SOFT_PREFIXES_WITH_HARD_ROOT word_lower = None <->
  (forall prefix root,
     In prefix SOFT_PREFIXES_WITH_HARD_ROOT ->
     word_lower = prefix ++ root -> vowel_free root = true).
Proof.
  split.
  - intros E prefix root Hp ->. apply first_vowel_none.
    pose proof (prefix_root_harmony_none _ _ E prefix Hp
                  (startswith_app _ _)) as V.
    now rewrite skipn_length_app in V.
  - intros H.
    destruct (prefix_root_harmony SOFT_PREFIXES_WITH_HARD_ROOT word_lower)
      as [h |] eqn:E; [| reflexivity].
    apply prefix_root_harmony_some in E. destruct E as (q & Hq & S & V).
    apply startswith_skipn in S. apply (H q _ Hq), first_vowel_none in S.
    congruence.
Qed.

(** C5.  [get_initial_harmony] is the classifier of the specification: it
    gives [h] for a word exactly when one of the six rules, taken in their
    order and each with the tests of the rules before it failing, gives [h].
    In particular a word that holds қ or ғ, in either case, is classified
    [back], whatever its vowels and whether or not it also holds к or г, and
    a word with no қ/ғ that holds к or г is classified [front]. *)
Theorem C5_classifier_priority_order (word : str) :
  ((exists c, In c word /\ In c back_signal_any_case) ->
   get_initial_harmony word = back)
  /\ ((forall c, In c word -> ~ In c back_signal_any_case) ->
      (exists c, In c word /\ In c k_or_g) ->
      get_initial_harmony word = front)
  /\ (forall h, classify word h <-> get_initial_harmony word = h).
Proof.
  split; [| split].
  - intros H. unfold get_initial_harmony.
    now rewrite (has_back_signal word H).
  - intros Hno Hk. unfold get_initial_harmony.
    now rewrite (no_back_signal word Hno), (has_front_signal word Hk).
  - intros h. unfold get_initial_harmony.
    rewrite holds_back_signal, holds_front_signal. split.
    + intros [Hb | Hb Hf | Hb Hf Hi | prefix root h' Hb Hf Hi Hp Hw Hv
              | h' Hb Hf Hi Hn Hv | Hb Hf Hi Hv]; rewrite Hb;
        try reflexivity; rewrite Hf; try reflexivity; rewrite Hi;
        try reflexivity.
      * apply first_vowel_some in Hv.
        now rewrite (prefix_root_harmony_rule _ prefix root h' Hp Hw Hv).
      * apply prefix_root_harmony_no_rule in Hn. rewrite Hn.
        apply first_vowel_some in Hv. now rewrite Hv.
      * assert (Hn : prefix_root_harmony SOFT_PREFIXES_WITH_HARD_ROOT
                       (lower word) = None).
        { apply prefix_root_harmony_no_rule. intros prefix root _ E.
          rewrite <- (skipn_length_app prefix root), <- E.
          now apply vowel_free_skipn. }
        rewrite Hn. apply first_vowel_none in Hv. now rewrite Hv.
    + destruct (holds back_signal_any_case word) eqn:Hb.
      { intros <-. now apply strong_back_consonant. }
      destruct (holds k_or_g word) eqn:Hf.
      { intros <-. now apply strong_front_consonant. }
      destruct (mem_str (lower word) I_INITIAL_NATIVE_WORDS) eqn:Hi.
      { intros <-. now apply i_initial_native_word. }
      destruct (prefix_root_harmony SOFT_PREFIXES_WITH_HARD_ROOT
                  (lower word)) as [h' |] eqn:Hp.
      { intros <-. apply prefix_root_harmony_some in Hp.
        destruct Hp as (prefix & Hp & S & V).
        apply (soft_prefix_and_root word prefix
                 (skipn (List.length prefix) (lower word)));
          try assumption.
        - now apply startswith_skipn.
        - now apply first_vowel_some. }
      pose proof (proj1 (prefix_root_harmony_no_rule _) Hp) as Hn.
      destruct (first_vowel (lower word)) as [h' |] eqn:V.
      * intros <-. apply first_vowel_of_word; try assumption.
        now apply first_vowel_some.
      * intros <-. apply no_vowel_found; try assumption.
        now apply first_vowel_none.
Qed.

(** One word for each rule, and where it can be a word that a later rule
    would classify the other way.  көқ holds қ, and also к and the front
    vowel ө; команда holds к and back vowels only; ит is an i-initial native
    word without front or back vowel; бесбала begins with the prefix бес,
    whose vowel is front, and has a back root; the first vowel of баспасөз
    is back and a later one is front; би holds no front or back vowel. *)
Lemma C5_classifier_priority_order_witness :
  get_initial_harmony (u "көқ") = back
  /\ get_initial_harmony (u "Команда") = front
  /\ get_initial_harmony (u "ит") = front
  /\ get_initial_harmony (u "Бесбала") = back
  /\ get_initial_harmony (u "баспасөз") = back
  /\ get_initial_harmony (u "би") = back.
Proof.
  split; [| split; [| split; [| split; [| split]]]].
  - apply (proj1 (C5_classifier_priority_order (u "көқ"))).
    exists (ch "қ"). split; vm_compute; tauto.
  - apply (proj1 (proj2 (C5_classifier_priority_order (u "Команда")))).
    + intros c Hc Hb. apply mem_In in Hc. apply mem_In in Hb.
      assert (G : forallb (fun c => negb (mem c back_signal_any_case))
                    (u "Команда") = true) by reflexivity.
      rewrite forallb_forall in G. apply mem_In, G in Hc.
      rewrite Hb in Hc. discriminate.
    + exists (ch "К"). split; vm_compute; tauto.
  - apply (proj2 (proj2 (C5_classifier_priority_order (u "ит")))).
    apply i_initial_native_word; reflexivity.
  - apply (proj2 (proj2 (C5_classifier_priority_order (u "Бесбала")))).
    apply (soft_prefix_and_root _ (u "бес") (u "бала")); try reflexivity.
    + vm_compute. tauto.
    + exists [ch "б"], (ch "а"), (u "ла").
      split; [reflexivity | split; reflexivity].
  - apply (proj2 (proj2 (C5_classifier_priority_order (u "баспасөз")))).
    apply first_vowel_of_word; try reflexivity.
    + intros prefix root Hp E. vm_compute in Hp.
      repeat (destruct Hp as [<- | Hp]; [vm_compute in E; discriminate E |]).
      destruct Hp.
    + exists [ch "б"], (ch "а"), (u "спасөз").
      split; [reflexivity | split; reflexivity].
  - apply (proj2 (proj2 (C5_classifier_priority_order (u "би")))).
    apply no_vowel_found; reflexivity.
Defined.

(** X9.  The signal test on the source is sound for the target: when a
    word holds к, г or е (either case), so that [has_hamza_signal] holds,
    its transcription holds ك, گ or ە, so that [has_hamza_signal_arabic]
    holds of it. *)
Theorem hamza_signal_is_transcribed (is_loanword : bool) (word : str) :
  has_hamza_signal word = true ->
  forall prev raw,
    transcribe is_loanword prev word = OK raw ->
    has_hamza_signal_arabic raw = true.
Proof.
  unfold has_hamza_signal, has_hamza_signal_arabic.
  induction word as [| c t IH]; cbn [existsb transcribe]; [discriminate |].
  intros H prev raw.
  destruct (transcribe_char is_loanword prev c) as [unit | e] eqn:Ec;
    [| discriminate].
  cbn [bind].
  destruct (transcribe is_loanword (Some c) t) as [rest | e] eqn:Et;
    [| discriminate].
  cbn [bind]. intros [= <-]. rewrite existsb_app.
  apply orb_true_iff in H. destruct H as [H | H].
  - apply orb_true_iff. left. apply mem_In in H.
    unfold HAMZA_SIGNAL_CYRILLIC in H. cbn [In] in H.
    destruct H as [<- | [<- | [<- | [<- | [<- | [<- | []]]]]]];
      cbv in Ec; injection Ec as <-; reflexivity.
  - apply orb_true_iff. right. now apply (IH H (Some c)).
Qed.

Lemma hamza_signal_is_transcribed_witness :
  has_hamza_signal_arabic (u "مەكتەپ") = true.
Proof.
  apply (hamza_signal_is_transcribed false (u "мектеп") eq_refl None).
  reflexivity.
Defined.

(** ** Letter case *)

Lemma run_char_forall (P : char -> bool) :
  forallb P alphabet = true -> P hyphen = true ->
  forall c, run_char c = true -> P c = true.
Proof.
  intros F H c R. unfold run_char in R. apply orb_true_iff in R.
  destruct R as [R | R]; [now apply (alphabet_forall P F) |].
  apply N.eqb_eq in R. now subst.
Qed.

Lemma is_run_run_chars (w : str) :
  is_run w = true -> forallb run_char w = true.
Proof.
  intros H. apply is_run_letters in H. apply forallb_forall. intros c Hc.
  rewrite Forall_forall in H. unfold run_char.
  destruct (H c Hc) as [-> | ->]; reflexivity.
Qed.

Lemma lower_char_idempotent (c : char) :
  run_char c = true -> lower_char (lower_char c) = lower_char c.
Proof.
  intros R. apply N.eqb_eq. revert c R.
  apply (run_char_forall (fun c => lower_char (lower_char c) =? lower_char c));
    reflexivity.
Qed.

Lemma lower_char_run_char (c : char) :
  run_char c = true -> is_letter (lower_char c) = is_letter c.
Proof.
  intros R. apply eqb_prop. revert c R.
  apply (run_char_forall
           (fun c => Bool.eqb (is_letter (lower_char c)) (is_letter c)));
    reflexivity.
Qed.

Lemma lower_idempotent (w : str) :
  forallb run_char w = true -> lower (lower w) = lower w.
Proof.
  induction w as [| c t IH]; [reflexivity |]. cbn [forallb]. intros F.
  apply andb_true_iff in F. destruct F as [Fc Ft].
  cbn [lower map]. fold (lower t). fold (lower (lower t)).
  now rewrite (lower_char_idempotent c Fc), (IH Ft).
Qed.

Lemma match_rest_lower (s : str) :
  forallb run_char s = true ->
  match_rest (lower s)
  = (lower (fst (match_rest s)), lower (snd (match_rest s))).
Proof.
  induction s as [| c t IH]; [reflexivity |]. cbn [forallb]. intros F.
  apply andb_true_iff in F. destruct F as [Fc Ft]. specialize (IH Ft).
  cbn [lower map match_rest]. fold (lower t).
  rewrite (lower_char_run_char c Fc), lower_char_hyphen.
  destruct (is_letter c).
  - rewrite IH. now destruct (match_rest t).
  - destruct (c =? hyphen); [| reflexivity].
    destruct t as [| d t']; [reflexivity |].
    cbn [forallb] in Ft. apply andb_true_iff in Ft. destruct Ft as [Fd _].
    cbn [lower map] in *. fold (lower t') in *.
    rewrite (lower_char_run_char d Fd). destruct (is_letter d);
      [| reflexivity].
    rewrite IH. now destruct (match_rest (d :: t')).
Qed.

Lemma is_run_lower (w : str) : is_run w = true -> is_run (lower w) = true.
Proof.
  intros H. pose proof (is_run_run_chars w H) as F.
  apply is_run_match in H. unfold is_run.
  destruct w as [| c t]; [discriminate |].
  cbn [forallb] in F. apply andb_true_iff in F. destruct F as [Fc Ft].
  cbn [match_run] in H. cbn [lower map match_run]. fold (lower t).
  rewrite (lower_char_run_char c Fc).
  destruct (is_letter c); [| discriminate].
  rewrite (match_rest_lower t Ft).
  destruct (match_rest t) as [m r]. injection H as -> ->. reflexivity.
Qed.

Lemma existsb_mem_lower (S : str) (w : str) :
  forallb (fun c => Bool.eqb (mem (lower_char c) S) (mem c S)) alphabet
  = true ->
  Bool.eqb (mem (lower_char hyphen) S) (mem hyphen S) = true ->
  forallb run_char w = true ->
  existsb (fun c => mem c S) (lower w) = existsb (fun c => mem c S) w.
Proof.
  intros FA FH. induction w as [| c t IH]; [reflexivity |].
  cbn [forallb]. intros F. apply andb_true_iff in F. destruct F as [Fc Ft].
  cbn [lower map existsb]. fold (lower t). rewrite (IH Ft). f_equal.
  apply eqb_prop.
  now apply (run_char_forall
               (fun c => Bool.eqb (mem (lower_char c) S) (mem c S))).
Qed.

Lemma is_loanword_lower (w : str) :
  forallb run_char w = true -> is_loanword (lower w) = is_loanword w.
Proof.
  intros F. unfold is_loanword, has_loanword_consonant.
  rewrite (lower_idempotent w F).
  now rewrite (existsb_mem_lower LOANWORD_CONSONANTS w eq_refl eq_refl F).
Qed.

Lemma get_initial_harmony_lower (w : str) :
  forallb run_char w = true ->
  get_initial_harmony (lower w) = get_initial_harmony w.
Proof.
  intros F. unfold get_initial_harmony. now rewrite (lower_idempotent w F).
Qed.

(** Е folds to е, and no letter of a run folds to Е. *)
Lemma has_e_lower (w : str) :
  forallb run_char w = true ->
  mem ie (lower (lower w)) || mem IE (lower w)
  = mem ie (lower w) || mem IE w.
Proof.
  intros F. rewrite (lower_idempotent w F).
  assert (A : mem IE (lower w) = false).
  { apply mem_false. intros H. unfold lower in H. apply in_map_iff in H.
    destruct H as (c & E & Hc). rewrite forallb_forall in F.
    apply F in Hc. revert E. apply N.eqb_neq, negb_true_iff. revert c Hc.
    apply (run_char_forall (fun c => negb (lower_char c =? IE)));
      reflexivity. }
  rewrite A, orb_false_r.
  destruct (mem IE w) eqn:B; [| now rewrite orb_false_r].
  rewrite orb_true_r. apply mem_In in B. apply mem_In.
  unfold lower. apply in_map_iff. exists IE. now split.
Qed.

Lemma apply_hamza_rule_lower (r w : str) :
  forallb run_char w = true ->
  apply_hamza_rule r (lower w) = apply_hamza_rule r w.
Proof.
  intros F. unfold apply_hamza_rule, is_i_initial_native.
  rewrite (is_loanword_lower w F), (get_initial_harmony_lower w F).
  rewrite (has_e_lower w F).
  rewrite (existsb_mem_lower k_or_g w eq_refl eq_refl F).
  now rewrite (lower_idempotent w F).
Qed.

Lemma transcribe_char_lower (is_loanword : bool) (prev : option char)
    (c : char) :
  run_char c = true ->
  match prev with Some p => run_char p = true | None => True end ->
  transcribe_char is_loanword (option_map lower_char prev) (lower_char c)
  = transcribe_char is_loanword prev c.
Proof.
  intros Rc Rp.
  assert (A : transcribe_char is_loanword (option_map lower_char prev)
                (lower_char c)
              = transcribe_char is_loanword prev (lower_char c)).
  { unfold transcribe_char. destruct prev as [p |]; [| reflexivity].
    cbn [option_map]. now rewrite (lower_char_idempotent p Rp). }
  rewrite A. clear A Rp.
  unfold transcribe_char. rewrite (lower_char_idempotent c Rc).
  assert (K : forall d : list (char * str),
             forallb (fun c => match get_char d (lower_char c), get_char d c
                               with
                               | Some a, Some b => eqb_str a b
                               | None, None => true
                               | _, _ => false
                               end) alphabet = true ->
             is_letter c = true ->
             has_key_char d (lower_char c) = has_key_char d c
             /\ subscript_char d (lower_char c) = subscript_char d c).
  { intros d Fd L. pose proof (alphabet_forall _ Fd c L) as H.
    cbv beta in H. revert H. unfold has_key_char, subscript_char.
    destruct (get_char d (lower_char c)) as [a |],
             (get_char d c) as [b |]; try discriminate; [| now split].
    intros H. apply eqb_str_eq in H. now subst. }
  unfold run_char in Rc. apply orb_true_iff in Rc. destruct Rc as [L | H].
  - destruct (K CONSONANTS eq_refl L) as [-> ->].
    destruct (K VOWELS eq_refl L) as [-> ->].
    pose proof (letter_is_transcribed c L) as T. revert T.
    destruct ((lower_char c =? soft_sign) || (lower_char c =? hard_sign));
      [reflexivity |].
    destruct (lower_char c =? yu); [reflexivity |].
    destruct ((lower_char c =? tse) || (lower_char c =? shcha)
              || (lower_char c =? yo)); [reflexivity |].
    destruct (lower_char c =? ya); [reflexivity |].
    destruct (lower_char c =? i_neutral); [reflexivity |].
    destruct (has_key_char CONSONANTS c); [reflexivity |].
    destruct (has_key_char VOWELS c); [reflexivity |].
    discriminate.
  - apply N.eqb_eq in H. subst c. reflexivity.
Qed.

Lemma transcribe_lower (is_loanword : bool) (w : str) :
  forallb run_char w = true ->
  forall prev,
    match prev with Some p => run_char p = true | None => True end ->
    transcribe is_loanword (option_map lower_char prev) (lower w)
    = transcribe is_loanword prev w.
Proof.
  induction w as [| c t IH]; [reflexivity |]. cbn [forallb]. intros F prev P.
  apply andb_true_iff in F. destruct F as [Fc Ft].
  cbn [lower map transcribe]. fold (lower t).
  rewrite (transcribe_char_lower is_loanword prev c Fc P).
  change (Some (lower_char c)) with (option_map lower_char (Some c)).
  now rewrite (IH Ft (Some c) Fc).
Qed.

Lemma convert_word_lower (w : str) :
  forallb run_char w = true -> convert_word (lower w) = convert_word w.
Proof.
  intros F. unfold convert_word. destruct w as [| c t]; [reflexivity |].
  change (lower (c :: t)) with (lower_char c :: lower t) at 1.
  cbv beta iota. change (lower_char c :: lower t) with (lower (c :: t)).
  rewrite (lower_idempotent _ F), (is_loanword_lower _ F).
  rewrite (transcribe_lower _ _ F None I).
  destruct (has_key PROPER_NOUNS _); [reflexivity |].
  destruct (has_key COMMON_WORDS _); [reflexivity |].
  destruct (transcribe _ None (c :: t)); [| reflexivity].
  cbn [bind]. now rewrite (apply_hamza_rule_lower _ _ F).
Qed.

Lemma mapM_convert_word_lower (parts : list str) :
  Forall (fun p => forallb run_char p = true) parts ->
  mapM convert_word (map lower parts) = mapM convert_word parts.
Proof.
  induction 1 as [| p ps Hp _ IH]; [reflexivity |].
  cbn [map mapM]. now rewrite (convert_word_lower p Hp), IH.
Qed.

Lemma mem_hyphen_lower (w : str) : mem hyphen (lower w) = mem hyphen w.
Proof.
  unfold mem. induction w as [| c t IH]; [reflexivity |].
  cbn [lower map existsb]. fold (lower t). rewrite IH.
  now rewrite (N.eqb_sym hyphen), lower_char_hyphen, (N.eqb_sym c).
Qed.

(** X10.  [convert] ignores letter case: a run and its case-folded form
    have the same conversion. *)
Theorem convert_ignores_case (w : str) :
  is_run w = true -> convert (lower w) = convert w.
Proof.
  intros H. pose proof (is_run_run_chars w H) as F.
  rewrite (convert_run _ (is_run_lower w H)), (convert_run w H).
  unfold convert_compound_word. destruct w as [| c t]; [reflexivity |].
  change (lower (c :: t)) with (lower_char c :: lower t) at 1.
  cbv beta iota. change (lower_char c :: lower t) with (lower (c :: t)).
  rewrite (lower_idempotent _ F), (convert_word_lower _ F), split_lower.
  rewrite (mapM_convert_word_lower _ (split_forallb _ hyphen _ F)).
  now rewrite mem_hyphen_lower.
Qed.

Lemma convert_ignores_case_witness :
  convert (lower (u "ӨНЕР-Білім")) = convert (u "ӨНЕР-Білім").
Proof.
  apply (convert_ignores_case (u "ӨНЕР-Білім")). vm_compute. reflexivity.
Defined.

(** ** The length of the output *)

Lemma lower_length (w : str) : List.length (lower w) = List.length w.
Proof. apply length_map. Qed.

Lemma transcribe_length (is_loanword : bool) (word : str) :
  forall prev raw,
    transcribe is_loanword prev word = OK raw ->
    (List.length raw <= 2 * List.length word)%nat.
Proof.
  induction word as [| c t IH]; cbn [transcribe]; intros prev raw.
  - intros [= <-]. apply le_n.
  - destruct (transcribe_char is_loanword prev c) as [unit | e] eqn:Ec;
      [| discriminate].
    cbn [bind].
    destruct (transcribe is_loanword (Some c) t) as [rest | e] eqn:Et;
      [| discriminate].
    cbn [bind]. intros [= <-]. rewrite length_app.
    specialize (IH (Some c) rest Et). cbn [List.length].
    assert (U : (List.length unit <= 2)%nat).
    { apply transcribe_char_unit in Ec. destruct Ec as [Hu | [-> _]];
        [| cbn; lia].
      assert (G : forallb (fun un => Nat.leb (List.length un) 2) units
                  = true) by reflexivity.
      rewrite forallb_forall in G. apply G in Hu.
      now apply PeanoNat.Nat.leb_le in Hu. }
    lia.
Qed.

Lemma apply_hamza_rule_length (r word : str) :
  (List.length (apply_hamza_rule r word) <= S (List.length r))%nat.
Proof.
  destruct (apply_hamza_rule_branch word) as [H | H]; rewrite H.
  - rewrite strip_hamza_filter.
    eapply PeanoNat.Nat.le_trans; [apply filter_length_le | apply le_S, le_n].
  - unfold prefix_hamza. destruct (negb (startswith r [HAMZA])); cbn; lia.
Qed.

Lemma convert_word_length (word out : str) :
  convert_word word = OK out ->
  (List.length out <= 3 * List.length word)%nat.
Proof.
  unfold convert_word. destruct word as [| c t];
    [intros [= <-]; apply le_n |].
  rewrite <- (lower_length (c :: t)).
  destruct (has_key PROPER_NOUNS _).
  { intros H. apply subscript_In in H.
    assert (G : forallb (fun kv => Nat.leb (List.length (snd kv))
                                     (3 * List.length (fst kv)))
                  PROPER_NOUNS = true) by reflexivity.
    rewrite forallb_forall in G. apply G in H. now apply PeanoNat.Nat.leb_le in H. }
  destruct (has_key COMMON_WORDS _).
  { intros H. apply subscript_In in H.
    assert (G : forallb (fun kv => Nat.leb (List.length (snd kv))
                                     (3 * List.length (fst kv)))
                  COMMON_WORDS = true) by reflexivity.
    rewrite forallb_forall in G. apply G in H. now apply PeanoNat.Nat.leb_le in H. }
  destruct (transcribe _ None (c :: t)) as [raw | e] eqn:E; [| discriminate].
  cbn [bind]. intros [= <-]. apply transcribe_length in E.
  pose proof (apply_hamza_rule_length raw (c :: t)).
  rewrite lower_length. cbn [List.length] in *. lia.
Qed.

Lemma join_length (sep : char) (parts : list str) :
  List.length (join [sep] parts) = joined_length parts.
Proof.
  induction parts as [| p ps IH]; [reflexivity |].
  cbn [join joined_length]. destruct ps as [| q qs]; [reflexivity |].
  rewrite !length_app, IH. cbn [List.length]. lia.
Qed.

Lemma split_not_nil (sep : char) (w : str) : split sep w <> [].
Proof.
  destruct w as [| c t]; cbn [split]; [discriminate |].
  destruct (c =? sep); [discriminate |].
  destruct (split sep t); discriminate.
Qed.

(** The parts of a string and the separators between them make up its
    length. *)
Lemma split_joined_length (sep : char) (w : str) :
  joined_length (split sep w) = List.length w.
Proof.
  induction w as [| c t IH]; [reflexivity |]. cbn [split List.length].
  pose proof (split_not_nil sep t) as N.
  destruct (c =? sep).
  - destruct (split sep t) as [| p ps]; [congruence |].
    cbn [joined_length List.length] in *. lia.
  - destruct (split sep t) as [| p ps]; [congruence |].
    cbn [joined_length List.length] in *. destruct ps; lia.
Qed.

Lemma joined_length_bound (parts outs : list str) :
  Forall2 (fun p o => (List.length o <= 3 * List.length p)%nat) parts outs ->
  (joined_length outs <= 3 * joined_length parts)%nat.
Proof.
  induction 1 as [| p o ps os Hp F IH]; [apply le_n |].
  cbn [joined_length]. destruct F as [| p' o' ps' os' Hp' F'];
    [assumption |].
  lia.
Qed.

Lemma convert_compound_word_length (word out : str) :
  convert_compound_word word = OK out ->
  (List.length out <= 3 * List.length word)%nat.
Proof.
  unfold convert_compound_word. destruct word as [| c t];
    [intros [= <-]; apply le_n |].
  destruct (has_key PROPER_NOUNS _).
  { rewrite <- (lower_length (c :: t)). intros H. apply subscript_In in H.
    assert (G : forallb (fun kv => Nat.leb (List.length (snd kv))
                                     (3 * List.length (fst kv)))
                  PROPER_NOUNS = true) by reflexivity.
    rewrite forallb_forall in G. apply G in H. now apply PeanoNat.Nat.leb_le in H. }
  destruct (has_key COMMON_WORDS _).
  { rewrite <- (lower_length (c :: t)). intros H. apply subscript_In in H.
    assert (G : forallb (fun kv => Nat.leb (List.length (snd kv))
                                     (3 * List.length (fst kv)))
                  COMMON_WORDS = true) by reflexivity.
    rewrite forallb_forall in G. apply G in H. now apply PeanoNat.Nat.leb_le in H. }
  destruct (mem hyphen (c :: t)); [| apply convert_word_length].
  destruct (mapM convert_word (split hyphen (c :: t))) as [outs | e] eqn:E;
    [| discriminate].
  cbn [bind]. intros [= <-]. rewrite join_length.
  rewrite <- (split_joined_length hyphen (c :: t)).
  apply joined_length_bound. apply mapM_Forall2 in E.
  eapply Forall2_impl; [| exact E]. intros p o. apply convert_word_length.
Qed.

Lemma match_run_length (s m r : str) :
  match_run s = Some (m, r) ->
  (1 <= List.length m <= List.length s)%nat.
Proof.
  intros H. pose proof (match_run_app _ _ _ H) as A.
  apply (f_equal (@List.length _)) in A. rewrite length_app in A.
  destruct m as [| x m']; [| cbn [List.length] in *; lia].
  destruct s as [| c t]; [discriminate |]. cbn in H.
  destruct (is_letter c); [destruct (match_rest t) |]; discriminate.
Qed.

Lemma re_sub_length (repl : str -> result str) :
  (forall m out, repl m = OK out ->
                 (List.length out <= 3 * List.length m)%nat) ->
  forall text skip out,
    re_sub repl skip text = OK out ->
    (List.length out <= 3 * (List.length text - skip))%nat.
Proof.
  intros Hrepl. induction text as [| c t IH]; intros skip out.
  - intros [= <-]. apply le_0_n.
  - cbn [re_sub]. destruct skip as [| k].
    + destruct (match_run (c :: t)) as [[m r] |] eqn:E.
      * destruct (repl m) as [o | e] eqn:Er; [| discriminate]. cbn [bind].
        destruct (re_sub repl _ t) as [rest | e] eqn:Es; [| discriminate].
        cbn [bind]. intros [= <-]. rewrite length_app.
        apply Hrepl in Er. apply IH in Es.
        apply match_run_length in E. cbn [List.length] in *. lia.
      * destruct (re_sub repl O t) as [rest | e] eqn:Es; [| discriminate].
        cbn [bind]. intros [= <-]. apply IH in Es.
        cbn [List.length] in *. lia.
    + intros H. apply IH in H. cbn [List.length]. lia.
Qed.

Lemma map_punctuation_length (text : str) :
  List.length (map_punctuation text) = List.length text.
Proof.
  rewrite map_punctuation_flat_map.
  induction text as [| c t IH]; [reflexivity |].
  cbn [flat_map]. destruct (punctuate_single c) as (c' & -> & _).
  cbn [app List.length]. now rewrite IH.
Qed.

(** X11.  The output of [convert] is at most three times as long as its
    text: a letter gives at most two code points, a word one marker more,
    and no table value is longer than three times its key. *)
Theorem convert_output_length (text : str) :
  exists out,
    convert text = OK out
    /\ (List.length out <= 3 * List.length text)%nat.
Proof.
  destruct (re_sub_total convert_compound_word convert_compound_word_total
              (map_punctuation text) O) as (out & H).
  exists out. split; [exact H |].
  apply (re_sub_length _ convert_compound_word_length) in H.
  rewrite map_punctuation_length in H. lia.
Qed.

(** ** Text of other scripts *)

Lemma filter_flat_map_pointwise {A} (f : A -> bool) (g h : A -> list A)
    (l : list A) :
  (forall a, filter f (g a) = filter f (h a)) ->
  filter f (flat_map g l) = filter f (flat_map h l).
Proof.
  intros H. induction l as [| a t IH]; [reflexivity |].
  cbn [flat_map]. now rewrite !filter_app, H, IH.
Qed.

Lemma punctuate_foreign (c : char) :
  filter foreign (punctuate c) = filter foreign [c].
Proof.
  destruct (is_letter c) eqn:L; [now rewrite (punctuate_letter c L) |].
  unfold punctuate at 1, PUNCTUATION. cbn [get]. rewrite !eqb_str_single.
  destruct (N.eqb_spec c 44) as [-> | N1]; [reflexivity |].
  destruct (N.eqb_spec c 46) as [-> | N2]; [reflexivity |].
  destruct (N.eqb_spec c 58) as [-> | N3]; [reflexivity |].
  destruct (N.eqb_spec c 59) as [-> | N4]; [reflexivity |].
  destruct (N.eqb_spec c 63) as [-> | N5]; [reflexivity |].
  destruct (N.eqb_spec c 33) as [-> | N6]; reflexivity.
Qed.

Lemma map_punctuation_foreign (text : str) :
  filter foreign (map_punctuation text) = filter foreign text.
Proof.
  rewrite map_punctuation_flat_map.
  rewrite (filter_flat_map_pointwise foreign punctuate (fun c => [c]))
    by apply punctuate_foreign.
  induction text as [| c t IH]; [reflexivity |].
  cbn [flat_map app filter] in *. now rewrite IH.
Qed.

Lemma letter_not_foreign (c : char) : is_letter c = true -> foreign c = false.
Proof.
  intros L. apply is_letter_cyrillic in L. unfold foreign.
  replace (c <? 0x400) with false; [reflexivity |].
  symmetry. apply N.ltb_ge. lia.
Qed.

(** Case folding leaves the foreign code points of a run, its hyphens,
    where they are. *)
Lemma lower_foreign (w : str) :
  forallb run_char w = true -> filter foreign (lower w) = filter foreign w.
Proof.
  induction w as [| c t IH]; [reflexivity |]. cbn [forallb]. intros F.
  apply andb_true_iff in F. destruct F as [Fc Ft].
  cbn [lower map filter]. fold (lower t). rewrite (IH Ft).
  unfold run_char in Fc. apply orb_true_iff in Fc. destruct Fc as [L | H].
  - rewrite (letter_not_foreign c L).
    rewrite <- (lower_char_run_char c) in L
      by (unfold run_char; now rewrite L).
    now rewrite (letter_not_foreign _ L).
  - apply N.eqb_eq in H. now subst c.
Qed.

Lemma transcribe_char_foreign (is_loanword : bool) (prev : option char)
    (c : char) (unit : str) :
  run_char c = true ->
  transcribe_char is_loanword prev c = OK unit ->
  filter foreign unit = filter foreign [c].
Proof.
  intros R H. unfold run_char in R. apply orb_true_iff in R.
  destruct R as [L | E].
  - cbn [filter]. rewrite (letter_not_foreign c L).
    apply transcribe_char_unit in H. destruct H as [Hu | [_ Hl]];
      [| congruence].
    assert (G : forallb (fun un => negb (existsb foreign un)) units = true)
      by reflexivity.
    rewrite forallb_forall in G. apply G in Hu. apply negb_true_iff in Hu.
    clear - Hu. induction unit as [| x t IH]; [reflexivity |].
    cbn [existsb filter] in *. apply orb_false_iff in Hu.
    destruct Hu as [-> Ht]. now apply IH.
  - apply N.eqb_eq in E. subst c. cbv in H. now injection H as <-.
Qed.

Lemma transcribe_foreign (is_loanword : bool) (word : str) :
  forallb run_char word = true ->
  forall prev raw,
    transcribe is_loanword prev word = OK raw ->
    filter foreign raw = filter foreign word.
Proof.
  induction word as [| c t IH]; cbn [forallb transcribe]; intros F prev raw.
  - now intros [= <-].
  - apply andb_true_iff in F. destruct F as [Fc Ft].
    destruct (transcribe_char is_loanword prev c) as [unit | e] eqn:Ec;
      [| discriminate].
    cbn [bind].
    destruct (transcribe is_loanword (Some c) t) as [rest | e] eqn:Et;
      [| discriminate].
    cbn [bind]. intros [= <-]. rewrite filter_app.
    rewrite (transcribe_char_foreign _ _ _ _ Fc Ec), (IH Ft _ _ Et).
    now rewrite <- filter_app.
Qed.

Lemma apply_hamza_rule_foreign (r word : str) :
  filter foreign (apply_hamza_rule r word) = filter foreign r.
Proof.
  destruct (apply_hamza_rule_branch word) as [H | H]; rewrite H.
  - rewrite strip_hamza_filter. induction r as [| c t IH]; [reflexivity |].
    cbn [filter]. destruct (N.eqb_spec c HAMZA) as [-> | N];
      cbn [negb]; [exact IH |].
    cbn [filter]. now rewrite IH.
  - unfold prefix_hamza. now destruct (negb (startswith r [HAMZA])).
Qed.

Lemma table_foreign (d : list (str * str)) (w v : str) :
  forallb (fun kv => eqb_str (filter foreign (snd kv))
                       (filter foreign (fst kv))) d = true ->
  forallb run_char w = true ->
  subscript d (lower w) = OK v ->
  filter foreign v = filter foreign w.
Proof.
  intros G F H. apply subscript_In in H. rewrite forallb_forall in G.
  apply G in H. cbn [fst snd] in H. apply eqb_str_eq in H.
  now rewrite H, lower_foreign.
Qed.

Lemma convert_word_foreign (word out : str) :
  forallb run_char word = true ->
  convert_word word = OK out ->
  filter foreign out = filter foreign word.
Proof.
  intros F. unfold convert_word. destruct word as [| c t];
    [now intros [= <-] |].
  destruct (has_key PROPER_NOUNS _);
    [now apply (table_foreign PROPER_NOUNS) |].
  destruct (has_key COMMON_WORDS _);
    [now apply (table_foreign COMMON_WORDS) |].
  destruct (transcribe _ None (c :: t)) as [raw | e] eqn:E; [| discriminate].
  cbn [bind]. intros [= <-]. rewrite apply_hamza_rule_foreign.
  eapply transcribe_foreign; eassumption.
Qed.

(** Splitting and joining again gives the string back. *)
Lemma join_split (sep : char) (w : str) : join [sep] (split sep w) = w.
Proof.
  induction w as [| c t IH]; [reflexivity |]. cbn [split].
  pose proof (split_not_nil sep t) as N.
  destruct (split sep t) as [| p ps]; [congruence |].
  destruct (N.eqb_spec c sep) as [-> | Ne].
  - change (join [sep] ([] :: p :: ps))
      with ([] ++ [sep] ++ join [sep] (p :: ps)).
    now rewrite IH.
  - destruct ps as [| q qs].
    + cbn [join] in *. now rewrite IH.
    + change (join [sep] ((c :: p) :: q :: qs))
        with (c :: join [sep] (p :: q :: qs)).
      now rewrite IH.
Qed.

Lemma join_foreign (sep : char) (parts outs : list str) :
  Forall2 (fun p o => filter foreign o = filter foreign p) parts outs ->
  filter foreign (join [sep] outs) = filter foreign (join [sep] parts).
Proof.
  induction 1 as [| p o ps os Hp F IH]; [reflexivity |].
  cbn [join]. destruct F as [| p' o' ps' os' Hp' F']; [assumption |].
  now rewrite !filter_app, Hp, IH.
Qed.

Lemma convert_compound_word_foreign (word out : str) :
  forallb run_char word = true ->
  convert_compound_word word = OK out ->
  filter foreign out = filter foreign word.
Proof.
  intros F. unfold convert_compound_word. destruct word as [| c t];
    [now intros [= <-] |].
  destruct (has_key PROPER_NOUNS _);
    [now apply (table_foreign PROPER_NOUNS) |].
  destruct (has_key COMMON_WORDS _);
    [now apply (table_foreign COMMON_WORDS) |].
  destruct (mem hyphen (c :: t)); [| now apply convert_word_foreign].
  destruct (mapM convert_word (split hyphen (c :: t))) as [outs | e] eqn:E;
    [| discriminate].
  cbn [bind]. intros [= <-].
  transitivity (filter foreign (join [hyphen] (split hyphen (c :: t))));
    [| now rewrite join_split].
  apply join_foreign. apply mapM_Forall2 in E.
  pose proof (split_forallb _ hyphen _ F) as Fp.
  induction E as [| p o ps os Hc _ IH]; [constructor |].
  inversion Fp as [| ? ? Hp Hps]; subst.
  constructor; [now apply convert_word_foreign | now apply IH].
Qed.

Lemma match_run_run_chars (s m r : str) :
  match_run s = Some (m, r) -> forallb run_char m = true.
Proof.
  intros H.
  assert (F : Forall (fun c => is_letter c = true \/ c = hyphen) m).
  { destruct s as [| c t]; [discriminate |]. simpl in H.
    destruct (is_letter c) eqn:L; [| discriminate].
    destruct (match_rest t) as [m' r'] eqn:E. injection H as <- <-.
    constructor; [now left | now apply (match_rest_letters t m' r')]. }
  apply forallb_forall. intros c Hc. rewrite Forall_forall in F.
  unfold run_char. destruct (F c Hc) as [-> | ->]; reflexivity.
Qed.

Lemma re_sub_foreign (repl : str -> result str) :
  (forall m out, forallb run_char m = true -> repl m = OK out ->
                 filter foreign out = filter foreign m) ->
  forall text skip out,
    re_sub repl skip text = OK out ->
    filter foreign out = filter foreign (skipn skip text).
Proof.
  intros Hrepl. induction text as [| c t IH]; intros skip out.
  - intros [= <-]. now destruct skip.
  - cbn [re_sub]. destruct skip as [| k]; [| apply IH]. cbn [skipn].
    destruct (match_run (c :: t)) as [[m r] |] eqn:E.
    + destruct (repl m) as [o | e] eqn:Er; [| discriminate]. cbn [bind].
      destruct (re_sub repl _ t) as [rest | e] eqn:Es; [| discriminate].
      cbn [bind]. intros [= <-]. rewrite filter_app.
      rewrite (Hrepl m o (match_run_run_chars _ _ _ E) Er), (IH _ _ Es).
      rewrite <- filter_app. f_equal.
      pose proof (match_run_app _ _ _ E) as A.
      destruct m as [| x m']; [apply match_run_length in E; cbn in E; lia |].
      cbn [app] in A. injection A as -> ->.
      cbn [List.length Nat.pred app]. f_equal.
      clear. induction m' as [| y m' IH]; [reflexivity |].
      cbn [app List.length skipn]. now f_equal.
    + destruct (re_sub repl O t) as [rest | e] eqn:Es; [| discriminate].
      cbn [bind]. intros [= <-]. cbn [filter].
      now rewrite (IH _ _ Es).
Qed.

(** X14.  [convert] keeps the text of other scripts: the code points below
    the Cyrillic block that the punctuation table does not change (digits,
    Latin letters, spaces, hyphens) are the same, in the same order, in the
    text and in the output. *)
Theorem convert_keeps_foreign_text (text : str) :
  exists out,
    convert text = OK out /\ filter foreign out = filter foreign text.
Proof.
  destruct (re_sub_total convert_compound_word convert_compound_word_total
              (map_punctuation text) O) as (out & H).
  exists out. split; [exact H |].
  apply (re_sub_foreign _ convert_compound_word_foreign) in H.
  cbn [skipn] in H. now rewrite H, map_punctuation_foreign.
Qed.

(** * Text splitting for segmented synthesis *)

Import Split.

(** ** White space *)

Lemma lstrip_length (s : str) :
  (List.length (lstrip s) <= List.length s)%nat.
Proof.
  induction s as [| c t IH]; [apply le_n |]. cbn [lstrip].
  destruct (isspace c); [cbn [List.length]; lia | apply le_n].
Qed.

Lemma strip_length (s : str) :
  (List.length (strip s) <= List.length s)%nat.
Proof.
  unfold strip. rewrite length_rev.
  pose proof (lstrip_length (rev (lstrip s))) as A.
  rewrite length_rev in A. pose proof (lstrip_length s). lia.
Qed.

Lemma no_space_app (a b : str) : no_space (a ++ b) = no_space a ++ no_space b.
Proof. apply filter_app. Qed.

Lemma no_space_rev (s : str) : no_space (rev s) = rev (no_space s).
Proof.
  induction s as [| c t IH]; [reflexivity |].
  cbn [rev]. rewrite no_space_app, IH. unfold no_space at 2 3.
  cbn [filter]. destruct (negb (isspace c)); [reflexivity |].
  cbn [rev]. apply app_nil_r.
Qed.

Lemma no_space_lstrip (s : str) : no_space (lstrip s) = no_space s.
Proof.
  induction s as [| c t IH]; [reflexivity |]. cbn [lstrip].
  destruct (isspace c) eqn:E; [| reflexivity].
  rewrite IH. unfold no_space. cbn [filter]. now rewrite E.
Qed.

Lemma no_space_strip (s : str) : no_space (strip s) = no_space s.
Proof.
  unfold strip.
  now rewrite no_space_rev, no_space_lstrip, no_space_rev, rev_involutive,
    no_space_lstrip.
Qed.

Lemma no_space_cons_space (c : char) (s : str) :
  isspace c = true -> no_space (c :: s) = no_space s.
Proof. intros E. unfold no_space. cbn [filter]. now rewrite E. Qed.

Lemma no_space_cons (c : char) (a b : str) :
  no_space a = no_space b -> no_space (c :: a) = no_space (c :: b).
Proof.
  intros E. unfold no_space in *. cbn [filter]. rewrite E. reflexivity.
Qed.

(** ** The packing loops *)

Lemma pack_step_within (max_length : Z) (state : str * list str)
    (piece : str) :
  (fst state = [] \/ within max_length (fst state)) ->
  Forall (fun ch => ch <> [] /\ within max_length ch) (snd state) ->
  within max_length piece ->
  (fst (pack_step max_length state piece) = []
   \/ within max_length (fst (pack_step max_length state piece)))
  /\ Forall (fun ch => ch <> [] /\ within max_length ch)
       (snd (pack_step max_length state piece)).
Proof.
  destruct state as [cur out]. cbn [fst snd pack_step]. intros Hc Ho Hp.
  destruct (Z.leb_spec
              (Z.of_nat (List.length cur) + Z.of_nat (List.length piece) + 1)
              max_length) as [L | L]; cbn [fst snd].
  - split; [| assumption]. right. left.
    pose proof (strip_length (cur ++ space :: piece)) as S.
    rewrite length_app in S. cbn [List.length] in S. lia.
  - split; [now right |].
    destruct cur as [| c cur']; [assumption |]. cbn [nonempty].
    apply Forall_app. split; [assumption |].
    constructor; [| constructor]. split; [discriminate |].
    destruct Hc as [Hc | Hc]; [discriminate | assumption].
Qed.

Lemma fold_pack_step_within (max_length : Z) (pieces : list str) :
  Forall (within max_length) pieces ->
  forall state,
    (fst state = [] \/ within max_length (fst state)) ->
    Forall (fun ch => ch <> [] /\ within max_length ch) (snd state) ->
    (fst (fold_left (pack_step max_length) pieces state) = []
     \/ within max_length
          (fst (fold_left (pack_step max_length) pieces state)))
    /\ Forall (fun ch => ch <> [] /\ within max_length ch)
         (snd (fold_left (pack_step max_length) pieces state)).
Proof.
  induction 1 as [| p ps Hp _ IH]; intros state Hc Ho; cbn [fold_left].
  - now split.
  - destruct (pack_step_within max_length state p Hc Ho Hp) as [Hc' Ho'].
    now apply IH.
Qed.

Lemma pack_within (max_length : Z) (pieces : list str) :
  Forall (within max_length) pieces ->
  Forall (fun ch => ch <> [] /\ within max_length ch)
    (pack max_length pieces).
Proof.
  intros F. unfold pack.
  destruct (fold_pack_step_within max_length pieces F ([], []))
    as [Hc Ho]; [now left | constructor |].
  set (st := fold_left (pack_step max_length) pieces _) in *.
  clearbody st. destruct st as [cur out]. cbn [fst snd] in Hc, Ho.
  destruct cur as [| c cur']; [assumption |]. cbn [nonempty].
  apply Forall_app. split; [assumption |].
  constructor; [| constructor]. split; [discriminate |].
  destruct Hc as [Hc | Hc]; [discriminate | assumption].
Qed.

Lemma split_parts_no_sep (sep : char) (s : str) :
  Forall (fun p => ~ In sep p) (split sep s).
Proof.
  induction s as [| c t IH]; cbn [split]; [now repeat constructor |].
  destruct (N.eqb_spec c sep) as [E | E]; [now constructor |].
  destruct (split sep t) as [| p ps];
    [repeat constructor; intros [H | []]; congruence |].
  inversion IH as [| ? ? Hp Hps]; subst. constructor; [| assumption].
  intros [H | H]; [congruence | contradiction].
Qed.

Lemma Forall_filter_weak {A} (P : A -> Prop) (f : A -> bool) (l : list A) :
  Forall P l -> Forall P (filter f l).
Proof.
  intros F. apply Forall_forall. intros x Hx. apply filter_In in Hx.
  rewrite Forall_forall in F. now apply F.
Qed.

Lemma refine_phrase_within (max_length : Z) (phrase : str) :
  Forall (within max_length) (refine_phrase max_length phrase).
Proof.
  unfold refine_phrase. destruct (negb (nonempty (strip phrase)));
    [constructor |].
  destruct (Z.leb_spec (Z.of_nat (List.length (strip phrase))) max_length).
  - constructor; [now left | constructor].
  - eapply Forall_impl; [| apply pack_within].
    + now intros ch [_ W].
    + apply Forall_filter_weak.
      eapply Forall_impl; [| apply split_parts_no_sep].
      intros p Hp. now right.
Qed.

Lemma Forall_flat_map_all {A B} (P : B -> Prop) (f : A -> list B)
    (l : list A) :
  (forall a, Forall P (f a)) -> Forall P (flat_map f l).
Proof.
  intros H. induction l as [| a t IH]; [constructor |].
  cbn [flat_map]. apply Forall_app. now split.
Qed.

Lemma refine_segment_within (max_length : Z) (seg : str) :
  Forall (within max_length) (refine_segment max_length seg).
Proof.
  unfold refine_segment. destruct (negb (nonempty (strip seg)));
    [constructor |].
  destruct (Z.leb_spec (Z.of_nat (List.length (strip seg))) max_length).
  - constructor; [now left | constructor].
  - apply Forall_flat_map_all. apply refine_phrase_within.
Qed.

(** X12.  No chunk of [split_text] is empty, and a chunk is longer than
    [max_length] only if it holds no space, that is if it is a single word
    that is itself longer than [max_length]. *)
Theorem split_text_chunks_within_limit (text : str) (max_length : Z)
    (chunk : str) :
  In chunk (split_text text max_length) ->
  chunk <> []
  /\ ((Z.of_nat (List.length chunk) <= max_length)%Z \/ ~ In space chunk).
Proof.
  intros H.
  assert (F : Forall (fun ch => ch <> [] /\ within max_length ch)
                (split_text text max_length))
    by apply pack_within, Forall_flat_map_all, refine_segment_within.
  rewrite Forall_forall in F. exact (F chunk H).
Qed.

Lemma split_text_chunks_within_limit_witness :
  u "Qazaqstan." <> []
  /\ ((Z.of_nat (List.length (u "Qazaqstan.")) <= 5)%Z
      \/ ~ In space (u "Qazaqstan.")).
Proof.
  apply (split_text_chunks_within_limit (u "Men Qazaqstan.  Sen de!") 5).
  vm_compute. tauto.
Defined.
(** ** What the chunks hold *)

Lemma concat_cons_head (c : char) (segments : list str) :
  List.concat (cons_head c segments) = c :: List.concat segments.
Proof. now destruct segments. Qed.

(** The matches of the pattern are white space. *)
Lemma re_split_after_no_space (cls : str) (s : str) :
  forall after in_match,
    no_space (List.concat (re_split_after cls after in_match s)) = no_space s.
Proof.
  induction s as [| c t IH]; intros after in_match; cbn [re_split_after].
  - now destruct after.
  - destruct (isspace c && (in_match || after)) eqn:E.
    + apply andb_true_iff in E. destruct E as [E _].
      rewrite (no_space_cons_space c t E).
      destruct in_match; cbn [List.concat app]; apply IH.
    + assert (A : no_space (List.concat (cons_head c
                     (re_split_after cls (mem c cls) false t)))
                  = no_space (c :: t)).
      { rewrite concat_cons_head. apply no_space_cons, IH. }
      destruct after; cbn [List.concat app]; exact A.
Qed.

Lemma split_space_no_space (s : str) :
  no_space (List.concat (split space s)) = no_space s.
Proof.
  induction s as [| c t IH]; [reflexivity |]. cbn [split].
  destruct (N.eqb_spec c space) as [-> | N].
  - cbn [List.concat app]. rewrite IH. symmetry.
    now apply no_space_cons_space.
  - destruct (split space t) as [| p ps] eqn:E.
    + cbn [List.concat app] in *. apply no_space_cons. exact IH.
    + cbn [List.concat app] in *. apply no_space_cons. exact IH.
Qed.

Lemma concat_filter_nonempty (l : list str) :
  List.concat (filter nonempty l) = List.concat l.
Proof.
  induction l as [| p ps IH]; [reflexivity |]. cbn [filter].
  destruct p as [| c p']; cbn [nonempty List.concat app]; [exact IH |].
  now rewrite IH.
Qed.

(** What a packing state holds: the chunks appended, then the current
    one. *)
Lemma pack_step_no_space (max_length : Z) (state : str * list str)
    (piece : str) :
  no_space (List.concat (snd (pack_step max_length state piece))
            ++ fst (pack_step max_length state piece))
  = no_space (List.concat (snd state) ++ fst state) ++ no_space piece.
Proof.
  destruct state as [cur out]. cbn [fst snd pack_step].
  destruct (Z.of_nat (List.length cur) + Z.of_nat (List.length piece) + 1
            <=? max_length)%Z; cbn [fst snd].
  - rewrite !no_space_app, no_space_strip, no_space_app.
    rewrite (no_space_cons_space space piece eq_refl).
    now rewrite app_assoc.
  - destruct cur as [| c cur']; cbn [nonempty].
    + now rewrite app_nil_r, !no_space_app.
    + rewrite concat_app. cbn [List.concat]. rewrite app_nil_r.
      now rewrite !no_space_app.
Qed.

Lemma fold_pack_step_no_space (max_length : Z) (pieces : list str) :
  forall state,
    no_space (List.concat (snd (fold_left (pack_step max_length) pieces state))
              ++ fst (fold_left (pack_step max_length) pieces state))
    = no_space (List.concat (snd state) ++ fst state)
      ++ no_space (List.concat pieces).
Proof.
  induction pieces as [| p ps IH]; intros state; cbn [fold_left List.concat].
  - now rewrite app_nil_r.
  - rewrite IH, pack_step_no_space, (no_space_app p).
    symmetry. apply app_assoc.
Qed.

Lemma pack_no_space (max_length : Z) (pieces : list str) :
  no_space (List.concat (pack max_length pieces)) = no_space (List.concat pieces).
Proof.
  unfold pack.
  pose proof (fold_pack_step_no_space max_length pieces ([], [])) as H.
  set (st := fold_left (pack_step max_length) pieces _) in *.
  clearbody st. destruct st as [cur out]. cbn [fst snd] in H.
  change (no_space (List.concat out ++ cur) = no_space (List.concat pieces))
    in H.
  rewrite <- H. destruct cur as [| c cur']; cbn [nonempty].
  - now rewrite app_nil_r.
  - rewrite concat_app. cbn [List.concat]. now rewrite app_nil_r.
Qed.

Lemma strip_empty_no_space (s : str) :
  nonempty (strip s) = false -> no_space s = [].
Proof.
  intros H. rewrite <- no_space_strip. now destruct (strip s).
Qed.

Lemma refine_phrase_no_space (max_length : Z) (phrase : str) :
  no_space (List.concat (refine_phrase max_length phrase)) = no_space phrase.
Proof.
  unfold refine_phrase. destruct (nonempty (strip phrase)) eqn:E;
    cbn [negb].
  - destruct (Z.of_nat (List.length (strip phrase)) <=? max_length)%Z.
    + cbn [List.concat]. now rewrite app_nil_r, no_space_strip.
    + now rewrite pack_no_space, concat_filter_nonempty,
        split_space_no_space, no_space_strip.
  - symmetry. now apply strip_empty_no_space.
Qed.

Lemma flat_map_no_space (f : str -> list str) (l : list str) :
  (forall x, no_space (List.concat (f x)) = no_space x) ->
  no_space (List.concat (flat_map f l)) = no_space (List.concat l).
Proof.
  intros H. induction l as [| x t IH]; [reflexivity |].
  cbn [flat_map List.concat]. now rewrite concat_app, !no_space_app, H, IH.
Qed.

Lemma refine_segment_no_space (max_length : Z) (seg : str) :
  no_space (List.concat (refine_segment max_length seg)) = no_space seg.
Proof.
  unfold refine_segment. destruct (nonempty (strip seg)) eqn:E;
    cbn [negb].
  - destruct (Z.of_nat (List.length (strip seg)) <=? max_length)%Z.
    + cbn [List.concat]. now rewrite app_nil_r, no_space_strip.
    + rewrite (flat_map_no_space _ _ (refine_phrase_no_space max_length)).
      unfold re_split. now rewrite re_split_after_no_space, no_space_strip.
  - symmetry. now apply strip_empty_no_space.
Qed.


(** Replacing white space by white space changes white space only. *)
Lemma replace_from_no_space (old new : str) :
  old <> [] -> no_space old = [] -> no_space new = [] ->
  forall s skip,
    no_space (replace_from old new skip s) = no_space (skipn skip s).
Proof.
  intros Hne Ho Hn. induction s as [| c t IH]; intros skip;
    [now destruct skip |].
  cbn [replace_from]. destruct skip as [| k]; [| apply IH].
  cbn [skipn]. destruct (startswith (c :: t) old) eqn:E.
  - rewrite no_space_app, Hn, IH. cbn [app].
    apply startswith_skipn in E.
    destruct old as [| o old']; [congruence |].
    cbn [List.length Nat.pred skipn] in *. rewrite E.
    now rewrite no_space_app, Ho.
  - apply no_space_cons. apply (IH O).
Qed.

Lemma replace_no_space (s old new : str) :
  old <> [] -> no_space old = [] -> no_space new = [] ->
  no_space (replace s old new) = no_space s.
Proof.
  intros Hne Ho Hn. unfold replace.
  now rewrite (replace_from_no_space old new Hne Ho Hn s O).
Qed.

(** X13.  [split_text] loses no text: with white space taken out, the
    chunks put end to end are the text, whatever [max_length] is. *)
Theorem split_text_keeps_the_text (text : str) (max_length : Z) :
  no_space (List.concat (split_text text max_length)) = no_space text.
Proof.
  unfold split_text.
  rewrite pack_no_space.
  rewrite (flat_map_no_space _ _ (refine_segment_no_space max_length)).
  unfold re_split. rewrite re_split_after_no_space.
  rewrite !replace_no_space; try reflexivity; discriminate.
Qed.

(** ** Blank text *)

Lemma no_space_nil_iff (s : str) :
  no_space s = [] <-> forallb isspace s = true.
Proof.
  induction s as [| c t IH]; [now split |].
  unfold no_space in *. cbn [filter forallb].
  destruct (isspace c); cbn [negb andb]; [exact IH |].
  split; discriminate.
Qed.

Lemma lstrip_blank (s : str) : no_space s = [] -> lstrip s = [].
Proof.
  intros H. apply no_space_nil_iff in H.
  induction s as [| c t IH]; [reflexivity |]. cbn [forallb lstrip] in *.
  apply andb_true_iff in H. destruct H as [-> H]. now apply IH.
Qed.

Lemma strip_blank (s : str) : no_space s = [] -> strip s = [].
Proof. intros H. unfold strip. now rewrite (lstrip_blank s H). Qed.

Lemma concat_blank (l : list str) :
  no_space (List.concat l) = [] -> Forall (fun p => no_space p = []) l.
Proof.
  induction l as [| p ps IH]; [constructor |]. cbn [List.concat].
  rewrite no_space_app. intros H. apply app_eq_nil in H.
  destruct H as [Hp Hps]. constructor; [exact Hp | now apply IH].
Qed.

Lemma refine_segment_blank (max_length : Z) (seg : str) :
  no_space seg = [] -> refine_segment max_length seg = [].
Proof.
  intros H. unfold refine_segment. now rewrite (strip_blank seg H).
Qed.

Lemma flat_map_all_nil {A B} (f : A -> list B) (l : list A) :
  Forall (fun a => f a = []) l -> flat_map f l = [].
Proof.
  induction 1 as [| a t Ha _ IH]; [reflexivity |].
  cbn [flat_map]. now rewrite Ha, IH.
Qed.

(** X15.  [split_text] gives no chunk at all exactly for a blank text, one
    that is empty or holds white space only. *)
Theorem split_text_blank (text : str) (max_length : Z) :
  split_text text max_length = [] <-> forallb isspace text = true.
Proof.
  rewrite <- no_space_nil_iff.
  assert (R : no_space (replace (replace text [CR; LF] [LF]) [CR] [LF])
              = no_space text)
    by (rewrite !replace_no_space; try reflexivity; discriminate).
  split; intros H.
  - assert (E : no_space (List.concat (split_text text max_length)) = []) 
      by now rewrite H.
    unfold split_text in E. rewrite pack_no_space in E.
    rewrite (flat_map_no_space _ _ (refine_segment_no_space max_length))
      in E.
    unfold re_split in E. rewrite re_split_after_no_space in E.
    now rewrite R in E.
  - unfold split_text. rewrite flat_map_all_nil; [reflexivity |].
    eapply Forall_impl; [intros seg; apply refine_segment_blank |].
    apply concat_blank. unfold re_split.
    now rewrite re_split_after_no_space, R.
Qed.

(** ** Line breaks *)

Section Chars.

Variable P : char -> Prop.
Hypothesis P_space : P space.

Lemma lstrip_chars (s : str) : Forall P s -> Forall P (lstrip s).
Proof.
  induction 1 as [| c t Hc Ht IH]; cbn [lstrip]; [constructor |].
  destruct (isspace c); [assumption | now constructor].
Qed.

Lemma strip_chars (s : str) : Forall P s -> Forall P (strip s).
Proof.
  intros F. unfold strip.
  apply Forall_rev, lstrip_chars, Forall_rev, lstrip_chars, F.
Qed.

Lemma cons_head_chars (c : char) (segments : list str) :
  P c -> Forall (Forall P) segments ->
  Forall (Forall P) (cons_head c segments).
Proof.
  intros Hc F. destruct F as [| seg rest Hs Hr]; cbn [cons_head].
  - constructor; [constructor; [exact Hc | constructor] | constructor].
  - constructor; [constructor; assumption | assumption].
Qed.

Lemma re_split_after_chars (cls s : str) :
  Forall P s ->
  forall after in_match,
    Forall (Forall P) (re_split_after cls after in_match s).
Proof.
  induction 1 as [| c t Hc _ IH]; intros after in_match;
    cbn [re_split_after].
  - destruct after; repeat constructor.
  - destruct (isspace c && (in_match || after)).
    + destruct in_match; [apply IH | constructor; [constructor | apply IH]].
    + destruct after; [constructor; [constructor |] |];
        apply cons_head_chars; auto.
Qed.

Lemma split_chars (sep : char) (s : str) :
  Forall P s -> Forall (Forall P) (split sep s).
Proof.
  induction 1 as [| c t Hc _ IH]; cbn [split]; [repeat constructor |].
  destruct (c =? sep); [constructor; [constructor | exact IH] |].
  destruct (split sep t) as [| p ps]; [repeat constructor; exact Hc |].
  inversion IH; subst. constructor; [now constructor | assumption].
Qed.

Lemma pack_step_chars (max_length : Z) (state : str * list str)
    (piece : str) :
  Forall P (fst state) -> Forall (Forall P) (snd state) -> Forall P piece ->
  Forall P (fst (pack_step max_length state piece))
  /\ Forall (Forall P) (snd (pack_step max_length state piece)).
Proof.
  destruct state as [cur out]. cbn [fst snd pack_step]. intros Hc Ho Hp.
  destruct (_ <=? max_length)%Z; cbn [fst snd].
  - split; [| assumption]. apply strip_chars, Forall_app.
    split; [assumption | now constructor].
  - split; [assumption |]. destruct (nonempty cur); [| assumption].
    apply Forall_app. split; [assumption | now repeat constructor].
Qed.

Lemma fold_pack_step_chars (max_length : Z) (pieces : list str) :
  Forall (Forall P) pieces ->
  forall state,
    Forall P (fst state) -> Forall (Forall P) (snd state) ->
    Forall P (fst (fold_left (pack_step max_length) pieces state))
    /\ Forall (Forall P)
         (snd (fold_left (pack_step max_length) pieces state)).
Proof.
  induction 1 as [| p ps Hp _ IH]; intros state Hc Ho; cbn [fold_left];
    [now split |].
  destruct (pack_step_chars max_length state p Hc Ho Hp) as [Hc' Ho'].
  now apply IH.
Qed.

Lemma pack_chars (max_length : Z) (pieces : list str) :
  Forall (Forall P) pieces -> Forall (Forall P) (pack max_length pieces).
Proof.
  intros F. unfold pack.
  destruct (fold_pack_step_chars max_length pieces F ([], []))
    as [Hc Ho]; [constructor | constructor |].
  set (st := fold_left (pack_step max_length) pieces _) in *.
  clearbody st. destruct st as [cur out]. cbn [fst snd] in Hc, Ho.
  destruct (nonempty cur); [| assumption].
  apply Forall_app. split; [assumption | now repeat constructor].
Qed.

Lemma refine_phrase_chars (max_length : Z) (phrase : str) :
  Forall P phrase -> Forall (Forall P) (refine_phrase max_length phrase).
Proof.
  intros F. apply strip_chars in F. unfold refine_phrase.
  destruct (negb (nonempty (strip phrase))); [constructor |].
  destruct (_ <=? max_length)%Z; [now repeat constructor |].
  now apply pack_chars, Forall_filter_weak, split_chars.
Qed.

Lemma refine_segment_chars (max_length : Z) (seg : str) :
  Forall P (strip seg) ->
  Forall (Forall P) (refine_segment max_length seg).
Proof.
  intros F. unfold refine_segment.
  destruct (negb (nonempty (strip seg))); [constructor |].
  destruct (_ <=? max_length)%Z; [now repeat constructor |].
  apply Forall_forall. intros piece Hp. apply in_flat_map in Hp.
  destruct Hp as (phrase & Hph & Hp).
  pose proof (re_split_after_chars (u ",;:") _ F false false) as G.
  rewrite Forall_forall in G. specialize (G phrase Hph).
  pose proof (refine_phrase_chars max_length phrase G) as G'.
  rewrite Forall_forall in G'. now apply G'.
Qed.

End Chars.

(** A segment of the first pattern is cut right after a line feed. *)
Lemma re_split_after_line_feed_head (cls s : str) :
  exists rest, re_split_after cls true false s = [] :: rest.
Proof.
  destruct s as [| c t]; cbn [re_split_after]; [now eexists |].
  rewrite orb_true_r, andb_true_r. destruct (isspace c); now eexists.
Qed.

Lemma re_split_after_line_feed_last (cls s : str) :
  mem LF cls = true ->
  forall after in_match,
    Forall (fun seg => ~ In LF (removelast seg))
      (re_split_after cls after in_match s).
Proof.
  intros Hcls. induction s as [| c t IH]; intros after in_match;
    cbn [re_split_after].
  - destruct after; repeat constructor; intros [].
  - destruct (isspace c && (in_match || after)).
    + destruct in_match; [apply IH |].
      constructor; [intros [] | apply IH].
    + assert (G : Forall (fun seg => ~ In LF (removelast seg))
                    (cons_head c (re_split_after cls (mem c cls) false t))).
      { pose proof (IH (mem c cls) false) as F.
        destruct (N.eqb_spec c LF) as [-> | Ne].
        - rewrite Hcls in *.
          destruct (re_split_after_line_feed_head cls t) as (rest & E).
          rewrite E in *. cbn [cons_head]. inversion F; subst.
          constructor; [intros [] | assumption].
        - destruct (re_split_after cls (mem c cls) false t) as [| h rest];
            cbn [cons_head]; [repeat constructor; intros [] |].
          inversion F as [| ? ? Hh Hr]; subst. constructor; [| assumption].
          destruct h as [| d h']; [intros [] |].
          change (removelast (c :: d :: h'))
            with (c :: removelast (d :: h')).
          intros [H | H]; [congruence | contradiction]. }
      destruct after; [constructor; [intros [] | exact G] | exact G].
Qed.

Lemma lstrip_removelast (s : str) :
  ~ In LF (removelast s) -> ~ In LF (removelast (lstrip s)).
Proof.
  induction s as [| c t IH]; [trivial |]. cbn [lstrip].
  destruct (isspace c); [| trivial]. intros H. apply IH.
  destruct t as [| d t']; [intros [] |].
  change (removelast (c :: d :: t')) with (c :: removelast (d :: t')) in H.
  intros G. apply H. now right.
Qed.

(** Stripped, such a segment holds no line feed. *)
Lemma strip_line_feed_last (s : str) :
  ~ In LF (removelast s) -> Forall (fun c => c <> LF) (strip s).
Proof.
  intros H. apply lstrip_removelast in H. unfold strip.
  apply Forall_rev. destruct (lstrip s) as [| c t] eqn:E; [constructor |].
  assert (Ne : c :: t <> []) by discriminate.
  rewrite (app_removelast_last c Ne) in *. rewrite rev_app_distr.
  rewrite removelast_last in H. cbn [rev app lstrip].
  assert (F : Forall (fun c => c <> LF) (rev (removelast (c :: t)))).
  { apply Forall_rev, Forall_forall. intros x Hx ->. now apply H. }
  destruct (isspace (last (c :: t) c)) eqn:S.
  - now apply lstrip_chars.
  - constructor; [| exact F]. intros L. rewrite L in S. discriminate.
Qed.

Lemma replace_from_carriage_return (s : str) :
  forall skip, Forall (fun c => c <> CR) (replace_from [CR] [LF] skip s).
Proof.
  induction s as [| c t IH]; intros skip; [constructor |].
  cbn [replace_from]. destruct skip as [| k]; [| apply IH].
  destruct (startswith (c :: t) [CR]) eqn:E.
  - constructor; [discriminate | apply IH].
  - constructor; [| apply IH]. intros ->. cbv in E. discriminate.
Qed.

(** X16.  No chunk of [split_text] holds a line break: a line feed always
    ends a segment and is stripped from it, and the carriage returns have
    been replaced before. *)
Theorem split_text_chunks_hold_no_line_break (text : str) (max_length : Z)
    (chunk : str) :
  In chunk (split_text text max_length) ->
  ~ In LF chunk /\ ~ In CR chunk.
Proof.
  intros H.
  assert (F : Forall (Forall (fun c => c <> LF /\ c <> CR))
                (split_text text max_length)).
  { unfold split_text. apply pack_chars; [split; discriminate |].
    apply Forall_forall. intros piece Hp. apply in_flat_map in Hp.
    destruct Hp as (seg & Hs & Hp).
    set (text' := replace _ [CR] [LF]) in Hs.
    assert (A : Forall (fun c => c <> LF /\ c <> CR) (strip seg)).
    { apply Forall_and.
      - apply strip_line_feed_last.
        pose proof (re_split_after_line_feed_last (u ".!?" ++ [LF]) text'
                      eq_refl false false) as G.
        rewrite Forall_forall in G. now apply G.
      - apply strip_chars.
        pose proof (re_split_after_chars (fun c => c <> CR)
                      (u ".!?" ++ [LF]) text'
                      (replace_from_carriage_return _ O) false false) as G.
        rewrite Forall_forall in G. now apply G. }
    assert (S : space <> LF /\ space <> CR) by (split; discriminate).
    pose proof (refine_segment_chars _ S max_length seg A) as G.
    rewrite Forall_forall in G. now apply G. }
  rewrite Forall_forall in F. specialize (F chunk H).
  rewrite Forall_forall in F.
  split; intros G; destruct (F _ G) as [A B]; congruence.
Qed.

Lemma split_text_chunks_hold_no_line_break_witness :
  ~ In LF (u "Men") /\ ~ In CR (u "Men").
Proof.
  apply (split_text_chunks_hold_no_line_break
           (u "Men" ++ [CR; LF] ++ u "Sen") 3).
  vm_compute. tauto.
Defined.
